(** * Game Finder: the aggregation engine of [main.py]

    A shallow embedding of the search endpoint, its four source adapters
    and its two helpers, followed by the properties of the specification
    that were checked against it.

    Python strings are sequences of code points, JSON documents are the
    values [json.loads] builds, exceptions are an error monad, and the
    network is an oracle that is consulted through a state monad keeping
    the list of requests sent and a logical clock. *)

From Stdlib Require Import String Ascii NArith ZArith Lia.
From stdpp Require Import base list.

Set Warnings "-register-all".

Local Open Scope N_scope.
Local Open Scope list_scope.

(** ** Strings *)

Module Str.

(** A character is a Unicode code point, a [str] a sequence of them. *)
Definition char := N.
Definition str := list char.

(** String literals of the source are written [lit "..."]. *)
Definition lit (s : string) : str := map N_of_ascii (list_ascii_of_string s).

Definition SP : char := 32.
Definition SLASH : char := 47.

Definition eqb (a b : str) : bool := bool_decide (a = b).

(** [Py_UNICODE_ISSPACE]: the characters matched by [\s] in a [str]
    pattern and removed by [str.strip()]. *)
Definition is_space (c : char) : bool :=
  ((9 <=? c) && (c <=? 13)) || ((28 <=? c) && (c <=? 32))
  || (c =? 0x85) || (c =? 0xA0) || (c =? 0x1680)
  || ((0x2000 <=? c) && (c <=? 0x200A))
  || (c =? 0x2028) || (c =? 0x2029) || (c =? 0x202F)
  || (c =? 0x205F) || (c =? 0x3000).

(** Unicode scalar values: code points that have a UTF-8 encoding. *)
Definition is_scalar (c : char) : bool :=
  (c <? 0xD800) || ((0xE000 <=? c) && (c <? 0x110000)).

Definition scalar_str (s : str) : Prop := Forall (fun c => is_scalar c = true) s.

(** [s.lstrip(chars)], [s.rstrip(chars)] and [s.strip(chars)], with the
    set of characters given as a predicate. *)
Fixpoint lstrip_by (p : char -> bool) (s : str) : str :=
  match s with
  | [] => []
  | c :: r => if p c then lstrip_by p r else s
  end.

Fixpoint rstrip_by (p : char -> bool) (s : str) : str :=
  match s with
  | [] => []
  | c :: r =>
      match rstrip_by p r with
      | [] => if p c then [] else [c]
      | r' => c :: r'
      end
  end.

Definition strip_by (p : char -> bool) (s : str) : str :=
  rstrip_by p (lstrip_by p s).

(** [s.strip()] *)
Definition strip (s : str) : str := strip_by is_space s.

(** [needle in hay] *)
Fixpoint starts_with (p s : str) : bool :=
  match p, s with
  | [], _ => true
  | _ :: _, [] => false
  | a :: p', b :: s' => (a =? b) && starts_with p' s'
  end.

Fixpoint contains (needle hay : str) : bool :=
  starts_with needle hay
  || match hay with
     | [] => false
     | _ :: r => contains needle r
     end.

(** [s.split()]: the maximal runs of non-whitespace characters, in order.
    [split_aux] returns the run touching the head of the string and the
    runs after it. *)
Definition push_word (p : str * list str) : list str :=
  match fst p with
  | [] => snd p
  | w => w :: snd p
  end.

Fixpoint split_aux (s : str) : str * list str :=
  match s with
  | [] => ([], [])
  | c :: r =>
      if is_space c then ([], push_word (split_aux r))
      else (c :: fst (split_aux r), snd (split_aux r))
  end.

Definition split_ws (s : str) : list str := push_word (split_aux s).

(** [" ".join(ws)] *)
Definition join_sp (ws : list str) : str :=
  match ws with
  | [] => []
  | w :: rest => w ++ flat_map (fun v => SP :: v) rest
  end.

End Str.

Import Str.

(** ** Helpers (main.py, lines 50-55) *)

(** [re.sub(r"\s+", " ", q)]: every maximal run of whitespace is replaced
    by one space; [in_run] tells that the previous character was
    whitespace, so the run has already been replaced. *)
Fixpoint re_sub_ws (in_run : bool) (q : str) : str :=
  match q with
  | [] => []
  | c :: r =>
      if is_space c then
        if in_run then re_sub_ws true r else SP :: re_sub_ws true r
      else c :: re_sub_ws false r
  end.

Definition normalize_query (q : str) : str := strip (re_sub_ws false q).

(** [items[:limit]]: a negative limit counts from the end of the list. *)
Definition slice_to {A} (items : list A) (limit : Z) : list A :=
  if (0 <=? limit)%Z then take (Z.to_nat limit) items
  else take (length items - Z.to_nat (- limit))%nat items.

Definition limited {A} (items : list A) (limit : Z) : list A :=
  slice_to items limit.

(** ** JSON values, as [json.loads] builds them *)

Inductive json :=
| JNull
| JBool (b : bool)
| JInt (z : Z)
| JFloat (bits : N)                  (* the IEEE-754 binary64 pattern *)
| JStr (s : str)
| JArr (items : list json)
| JObj (fields : list (str * json)). (* a dict, in insertion order *)

(** [bool(v)] *)
Definition truthy (v : json) : bool :=
  match v with
  | JNull => false
  | JBool b => b
  | JInt z => negb (z =? 0)%Z
  | JFloat bits => negb (N.land bits 0x7FFFFFFFFFFFFFFF =? 0)
  | JStr s => negb (eqb s [])
  | JArr items => match items with [] => false | _ => true end
  | JObj fields => match fields with [] => false | _ => true end
  end.

(** [a or b] *)
Definition or_else (a b : json) : json := if truthy a then a else b.

Fixpoint dict_get (fields : list (str * json)) (key : str) : option json :=
  match fields with
  | [] => None
  | (k, v) :: rest => if eqb k key then Some v else dict_get rest key
  end.

(** ** Exceptions *)

Inductive exn :=
| HTTPException (status_code : N) (detail : str)
| AttributeError
| TypeError
| KeyError
| IndexError
| UnicodeEncodeError
| RequestException            (* ConnectionError, Timeout *)
| HTTPError (status_code : N) (* raise_for_status *)
| JSONDecodeError.

Inductive exc (A : Type) :=
| Ok (a : A)
| Raise (e : exn).
Arguments Ok {A} a.
Arguments Raise {A} e.

Definition exc_bind {A B} (m : exc A) (k : A -> exc B) : exc B :=
  match m with
  | Ok a => k a
  | Raise e => Raise e
  end.

Declare Scope exc_scope.
Delimit Scope exc_scope with exc.
Notation "x <- e ;; k" := (exc_bind e (fun x => k))
  (at level 100, e at next level, right associativity) : exc_scope.

(** ** Python operations on JSON values *)

Section PyOps.
Local Open Scope exc_scope.

(** [v.get(key)]: only a dict has [get]; an absent key gives [None]. *)
Definition py_get (v : json) (key : str) : exc json :=
  match v with
  | JObj fields => Ok (default JNull (dict_get fields key))
  | _ => Raise AttributeError
  end.

(** [v.get(key, dflt)] *)
Definition py_get_default (v : json) (key : str) (dflt : json) : exc json :=
  match v with
  | JObj fields => Ok (default dflt (dict_get fields key))
  | _ => Raise AttributeError
  end.

(** The receiver of a [str] method such as [strip] or [lower]. *)
Definition as_str (v : json) : exc str :=
  match v with
  | JStr s => Ok s
  | _ => Raise AttributeError
  end.

(** [v[0]] *)
Definition subscript0 (v : json) : exc json :=
  match v with
  | JArr (x :: _) => Ok x
  | JArr [] => Raise IndexError
  | JStr (c :: _) => Ok (JStr [c])
  | JStr [] => Raise IndexError
  | JObj _ => Raise KeyError
  | _ => Raise TypeError
  end.

(** [for x in v] *)
Definition py_iter (v : json) : exc (list json) :=
  match v with
  | JArr items => Ok items
  | JObj fields => Ok (map (fun kv => JStr (fst kv)) fields)
  | JStr s => Ok (map (fun c => JStr [c]) s)
  | _ => Raise TypeError
  end.

End PyOps.

(** ** [urllib.parse.quote] *)

Definition utf8 (c : char) : exc (list N) :=
  if c <? 0x80 then Ok [c]
  else if c <? 0x800 then
    Ok [N.lor 0xC0 (N.shiftr c 6); N.lor 0x80 (N.land c 0x3F)]
  else if negb (is_scalar c) then Raise UnicodeEncodeError
  else if c <? 0x10000 then
    Ok [N.lor 0xE0 (N.shiftr c 12);
        N.lor 0x80 (N.land (N.shiftr c 6) 0x3F);
        N.lor 0x80 (N.land c 0x3F)]
  else
    Ok [N.lor 0xF0 (N.shiftr c 18);
        N.lor 0x80 (N.land (N.shiftr c 12) 0x3F);
        N.lor 0x80 (N.land (N.shiftr c 6) 0x3F);
        N.lor 0x80 (N.land c 0x3F)].

(** Letters, digits, [_.-~] and the default [safe="/"]. *)
Definition always_safe (b : N) : bool :=
  ((65 <=? b) && (b <=? 90)) || ((97 <=? b) && (b <=? 122))
  || ((48 <=? b) && (b <=? 57))
  || (b =? 95) || (b =? 46) || (b =? 45) || (b =? 126) || (b =? 47).

Definition hex_digit (d : N) : char := if d <? 10 then 48 + d else 55 + d.

Definition quote_byte (b : N) : str :=
  if always_safe b then [b]
  else [37; hex_digit (N.shiftr b 4); hex_digit (N.land b 0xF)].

Fixpoint quote (s : str) : exc str :=
  match s with
  | [] => Ok []
  | c :: r =>
      (bytes <- utf8 c ;;
       rest <- quote r ;;
       Ok (flat_map quote_byte bytes ++ rest))%exc
  end.

(** ** Results *)

Record Hit := { title : str; url : str }.

(** The dict an adapter returns; [preview] is absent until the endpoint
    sets it. *)
Record SourceResult := {
  source : str;
  more_url : str;
  hits : list Hit;
  total_hits : nat;
  preview : option (list Hit)
}.

Record AggregateResponse := {
  query : str;
  sources : list SourceResult
}.

(** ** The network *)

(** What the HTML adapters read off one listing card of itch.io:
    [select_one(".title, .game_title")] with its [get_text(strip=True)],
    and [select_one("a.title, a.game_link, a.thumb_link")] with its
    [href] attribute. *)
Record game_cell := {
  title_el : option str;
  link_el : option (option str)
}.

(** One [a.search_result_row] of the Steam search page:
    [select_one("span.title")] with its text, and the row's own [href]. *)
Record result_row := {
  row_title_el : option str;
  row_href : option str
}.

(** The body of a response, seen through the three parsers in use:
    [r.json()], and the selections BeautifulSoup makes on [r.text]. *)
Record body := {
  as_json : option json;
  game_cells : list game_cell;
  result_rows : list result_row
}.

Inductive reply :=
| ConnectionFailed
| TimedOut
| Response (status_code : N) (b : body).

Record request := {
  req_url : str;
  req_params : list (str * json)
}.

Record world := {
  serve : request -> reply;
  elapsed : request -> N       (* how long the blocking call takes *)
}.

(** The state threaded through a request: a logical clock and the
    requests sent so far, each with the time it was issued at. *)
Record st := {
  clock : N;
  sent : list (N * request)
}.

Definition M (A : Type) : Type := st -> exc A * st.

Definition ret {A} (a : A) : M A := fun s => (Ok a, s).
Definition raise {A} (e : exn) : M A := fun s => (Raise e, s).
Definition lift {A} (m : exc A) : M A := fun s => (m, s).

Definition bind {A B} (m : M A) (k : A -> M B) : M B :=
  fun s =>
    match m s with
    | (Ok a, s') => k a s'
    | (Raise e, s') => (Raise e, s')
    end.

(** [try: body  except Exception: handler] *)
Definition try_except {A} (body : M A) (handler : M A) : M A :=
  fun s =>
    match body s with
    | (Ok a, s') => (Ok a, s')
    | (Raise _, s') => handler s'
    end.

Declare Scope io_scope.
Delimit Scope io_scope with io.
Notation "x <- e ;; k" := (bind e (fun x => k))
  (at level 100, e at next level, right associativity) : io_scope.

Definition encodable (rq : request) : bool :=
  forallb is_scalar (req_url rq)
  && forallb (fun kv =>
                match snd kv with
                | JStr s => forallb is_scalar s
                | _ => true
                end) (req_params rq).

(** [requests.get(url, params=..., headers=HEADERS, timeout=10)]: the
    request is prepared (its strings encoded), sent, and the call blocks
    until the upstream has answered or failed. *)
Definition requests_get (w : world) (rq : request) : M (N * body) :=
  fun s =>
    if encodable rq then
      let s' := {| clock := clock s + elapsed w rq;
                   sent := sent s ++ [(clock s, rq)] |} in
      match serve w rq with
      | Response code b => (Ok (code, b), s')
      | ConnectionFailed | TimedOut => (Raise RequestException, s')
      end
    else (Raise UnicodeEncodeError, s).

(** [r.raise_for_status()] *)
Definition raise_for_status (r : N * body) : exc unit :=
  if (400 <=? fst r) && (fst r <? 600) then Raise (HTTPError (fst r))
  else Ok tt.

(** [r.json()] *)
Definition r_json (r : N * body) : exc json :=
  match as_json (snd r) with
  | Some j => Ok j
  | None => Raise JSONDecodeError
  end.

(** ** The Python runtime

    Two library functions depend on tables that are not part of the
    program: [str.lower] (the Unicode case mappings) and the text a value
    that is not a string takes inside an f-string. *)

Class Runtime := {
  lower : str -> str;
  py_repr : json -> str
}.

(** [f"{v}"] *)
Definition format_value `{Runtime} (v : json) : str :=
  match v with
  | JStr s => s
  | _ => py_repr v
  end.

(** ** Source adapters (main.py, lines 62-159) *)

(** A [for] loop that appends a hit for some of the items; an exception
    raised by the body leaves the loop. *)
Fixpoint for_each {A} (body : A -> exc (option Hit)) (items : list A)
    (acc : list Hit) : exc (list Hit) :=
  match items with
  | [] => Ok acc
  | x :: rest =>
      match body x with
      | Raise e => Raise e
      | Ok None => for_each body rest acc
      | Ok (Some h) => for_each body rest (acc ++ [h])
      end
  end.

Section Adapters.
Context `{Runtime}.
Variable w : world.

Local Open Scope exc_scope.

(** *** Epic Games Store *)

Definition epic_url : str :=
  lit "https://store-site-backend-static.ak.epicgames.com/freeGamesPromotions?locale=en-US&country=US&allowCountries=US".
Definition epic_source : str := lit "Epic Games Store (Free Now)".
Definition epic_more_url : str := lit "https://store.epicgames.com/en-US/free-games".
Definition epic_product_url : str := lit "https://store.epicgames.com/en-US/p/".
Definition epic_listing_url : str := lit "https://store.epicgames.com/free-games".

(** Lines 73-78. *)
Definition is_free_now (el : json) : exc bool :=
  p <- py_get el (lit "promotions") ;;
  let promotions := or_else p (JObj []) in
  if truthy promotions then
    u <- py_get promotions (lit "promotionalOffers") ;;
    let upcomings := or_else u (JArr []) in
    if truthy upcomings then
      first <- subscript0 upcomings ;;
      offers <- py_get first (lit "promotionalOffers") ;;
      Ok (truthy offers)
    else Ok false
  else Ok false.

(** Lines 81-91. *)
Definition epic_link (el : json) : exc str :=
  k <- py_get el (lit "keyImages") ;;
  let key_images := or_else k (JArr []) in
  p <- py_get el (lit "productSlug") ;;
  product_slug <- (if truthy p then Ok p else py_get el (lit "urlSlug")) ;;
  if truthy product_slug then
    slug <- as_str product_slug ;;
    Ok (epic_product_url ++ strip_by (N.eqb SLASH) slug)
  else Ok epic_listing_url.

(** The body of the loop of lines 70-92. *)
Definition epic_element (qry : str) (el : json) : exc (option Hit) :=
  t <- py_get_default el (lit "title") (JStr []) ;;
  raw_title <- as_str t ;;
  let ttl := strip raw_title in
  free <- is_free_now el ;;
  if negb (eqb ttl []) && contains (lower qry) (lower ttl) && free then
    link <- epic_link el ;;
    Ok (Some {| title := ttl; url := link |})
  else Ok None.

(** Line 68, and the iteration that line 70 starts. *)
Definition epic_elements (data : json) : exc (list json) :=
  d <- py_get_default data (lit "data") (JObj []) ;;
  c <- py_get_default d (lit "Catalog") (JObj []) ;;
  s <- py_get_default c (lit "searchStore") (JObj []) ;;
  elements <- py_get_default s (lit "elements") (JArr []) ;;
  py_iter elements.

(** Lines 68-92. *)
Definition epic_hits (qry : str) (data : json) : exc (list Hit) :=
  items <- epic_elements data ;;
  for_each (epic_element qry) items [].

Definition epic_request : request :=
  {| req_url := epic_url; req_params := [] |}.

Definition search_epic_free_games (qry : str) : M SourceResult :=
  try_except
    (r <- requests_get w epic_request ;;
     _ <- lift (raise_for_status r) ;;
     data <- lift (r_json r) ;;
     found <- lift (epic_hits qry data) ;;
     ret {| source := epic_source; more_url := epic_more_url;
            hits := found; total_hits := length found;
            preview := None |})%io
    (ret {| source := epic_source; more_url := epic_more_url;
            hits := []; total_hits := 0; preview := None |}).

(** *** itch.io *)

Definition itch_source : str := lit "itch.io (Free)".
Definition itch_search_prefix : str := lit "https://itch.io/games/free?q=".

(** The body of the loop of lines 106-114. *)
Definition itch_cell (qry : str) (item : game_cell) : exc (option Hit) :=
  match title_el item, link_el item with
  | Some ttl, Some href =>
      match href with
      | Some target =>
          if negb (eqb ttl []) && negb (eqb target [])
             && contains (lower qry) (lower ttl)
          then Ok (Some {| title := ttl; url := target |})
          else Ok None
      | None => Ok None
      end
  | _, _ => Ok None
  end.

Definition itch_search_url (qry : str) : exc str :=
  quoted <- quote qry ;;
  Ok (itch_search_prefix ++ quoted).

Definition search_itch_free (qry : str) : M SourceResult :=
  (search_url <- lift (itch_search_url qry) ;;
   try_except
     (r <- requests_get w {| req_url := search_url; req_params := [] |} ;;
      _ <- lift (raise_for_status r) ;;
      found <- lift (for_each (itch_cell qry) (game_cells (snd r)) []) ;;
      ret {| source := itch_source; more_url := search_url;
             hits := found; total_hits := length found;
             preview := None |})
     (ret {| source := itch_source; more_url := search_url;
             hits := []; total_hits := 0; preview := None |}))%io.

(** *** Steam *)

Definition steam_source : str := lit "Steam (Free to Play)".
Definition steam_search_prefix : str :=
  lit "https://store.steampowered.com/search/?term=".
Definition steam_search_suffix : str := lit "&price=free".

(** The body of the loop of lines 128-135. *)
Definition steam_row (qry : str) (a : result_row) : exc (option Hit) :=
  match row_title_el a with
  | None => Ok None
  | Some ttl =>
      match row_href a with
      | Some href =>
          if negb (eqb ttl []) && negb (eqb href [])
             && contains (lower qry) (lower ttl)
          then Ok (Some {| title := ttl; url := href |})
          else Ok None
      | None => Ok None
      end
  end.

Definition steam_search_url (qry : str) : exc str :=
  quoted <- quote qry ;;
  Ok (steam_search_prefix ++ quoted ++ steam_search_suffix).

Definition search_steam_free (qry : str) : M SourceResult :=
  (search_url <- lift (steam_search_url qry) ;;
   try_except
     (r <- requests_get w {| req_url := search_url; req_params := [] |} ;;
      _ <- lift (raise_for_status r) ;;
      found <- lift (for_each (steam_row qry) (result_rows (snd r)) []) ;;
      ret {| source := steam_source; more_url := search_url;
             hits := found; total_hits := length found;
             preview := None |})
     (ret {| source := steam_source; more_url := search_url;
             hits := []; total_hits := 0; preview := None |}))%io.

(** *** Internet Archive *)

Definition archive_source : str := lit "Internet Archive (Software)".
Definition archive_base : str := lit "https://archive.org/advancedsearch.php".
Definition archive_details_prefix : str := lit "https://archive.org/details/".
Definition archive_search_prefix : str :=
  lit "https://archive.org/search.php?query=".
Definition archive_media_filter : str :=
  lit "&and[]=mediatype%3A%22software%22".

Definition archive_params (qry : str) : list (str * json) :=
  [ (lit "q", JStr (qry ++ lit " AND mediatype:(software)"));
    (lit "fl[]", JArr [JStr (lit "identifier"); JStr (lit "title")]);
    (lit "rows", JInt 50);
    (lit "output", JStr (lit "json")) ].

Definition archive_request (qry : str) : request :=
  {| req_url := archive_base; req_params := archive_params qry |}.

(** One step of the comprehension of line 155: the condition, then the
    element.  The hit's title is the value that was just lower-cased,
    hence a string. *)
Definition archive_doc (qry : str) (d : json) : exc (option Hit) :=
  t <- py_get d (lit "title") ;;
  if truthy t then
    t' <- py_get_default d (lit "title") (JStr []) ;;
    s <- as_str t' ;;
    if contains (lower qry) (lower s) then
      shown <- py_get_default d (lit "title") (JStr (lit "Untitled")) ;;
      ttl <- as_str shown ;;
      ident <- py_get d (lit "identifier") ;;
      Ok (Some {| title := ttl;
                  url := archive_details_prefix ++ format_value ident |})
    else Ok None
  else Ok None.

(** Line 154, and the iteration of line 155. *)
Definition archive_docs (data : json) : exc (list json) :=
  r <- py_get_default data (lit "response") (JObj []) ;;
  docs <- py_get_default r (lit "docs") (JArr []) ;;
  py_iter docs.

(** Lines 154-155. *)
Definition archive_hits (qry : str) (data : json) : exc (list Hit) :=
  items <- archive_docs data ;;
  for_each (archive_doc qry) items [].

Definition search_internet_archive (qry : str) : M SourceResult :=
  try_except
    (r <- requests_get w (archive_request qry) ;;
     _ <- lift (raise_for_status r) ;;
     data <- lift (r_json r) ;;
     found <- lift (archive_hits qry data) ;;
     quoted <- lift (quote qry) ;;
     ret {| source := archive_source;
            more_url := archive_search_prefix ++ quoted ++ archive_media_filter;
            hits := found; total_hits := length found;
            preview := None |})%io
    (quoted <- lift (quote qry) ;;
     ret {| source := archive_source;
            more_url := archive_search_prefix ++ quoted;
            hits := []; total_hits := 0; preview := None |})%io.

(** ** The endpoint (main.py, lines 162-187) *)

(** [src["preview"] = limited(src.get("hits", []), 3)] *)
Definition set_preview (src : SourceResult) : SourceResult :=
  {| source := source src; more_url := more_url src; hits := hits src;
     total_hits := total_hits src;
     preview := Some (limited (hits src) 3) |}.

Definition search_games (q : str) : M AggregateResponse :=
  let qry := normalize_query q in
  if eqb qry [] then
    raise (HTTPException 400 (lit "Query cannot be empty"))
  else
    (epic <- search_epic_free_games qry ;;
     itch <- search_itch_free qry ;;
     steam <- search_steam_free qry ;;
     archive <- search_internet_archive qry ;;
     let srcs := [epic; itch; steam; archive] in
     let ordered :=
       fold_left (fun ordered src => ordered ++ [set_preview src]) srcs [] in
     ret {| query := qry; sources := ordered |})%io.

End Adapters.

Arguments epic_url : simpl never.
Arguments epic_source : simpl never.
Arguments epic_more_url : simpl never.
Arguments epic_product_url : simpl never.
Arguments epic_listing_url : simpl never.
Arguments itch_source : simpl never.
Arguments itch_search_prefix : simpl never.
Arguments steam_source : simpl never.
Arguments steam_search_prefix : simpl never.
Arguments steam_search_suffix : simpl never.
Arguments archive_source : simpl never.
Arguments archive_base : simpl never.
Arguments archive_details_prefix : simpl never.
Arguments archive_search_prefix : simpl never.
Arguments archive_media_filter : simpl never.
Arguments lit : simpl never.

(** ** Fixtures: a runtime, upstreams and catalog elements to run the
    definitions on *)

Definition ascii_lower (s : str) : str :=
  map (fun c => if (65 <=? c) && (c <=? 90) then c + 32 else c) s.

Definition ascii_runtime : Runtime :=
  {| lower := ascii_lower;
     py_repr := fun v =>
       match v with
       | JNull => lit "None"
       | JBool true => lit "True"
       | JBool false => lit "False"
       | _ => lit "?"
       end |}.

Definition empty_body : body :=
  {| as_json := None; game_cells := []; result_rows := [] |}.

Definition json_body (j : json) : body :=
  {| as_json := Some j; game_cells := []; result_rows := [] |}.

(** Every upstream is unreachable; each call blocks for 10 time units. *)
Definition offline : world :=
  {| serve := fun _ => ConnectionFailed; elapsed := fun _ => 10 |}.

Definition s0 : st := {| clock := 0; sent := [] |}.

Definition offer : json := JObj [(lit "discountPercentage", JInt 0)].

(** A catalog element with the given title, offers and slugs. *)
Definition element (ttl : string) (promotions : json)
    (slugs : list (str * json)) : json :=
  JObj ((lit "title", JStr (lit ttl)) :: (lit "promotions", promotions) :: slugs).

Definition promoted_now : json :=
  JObj [(lit "promotionalOffers",
         JArr [JObj [(lit "promotionalOffers", JArr [offer])]])].

(** The first entry of the offers is empty, the second is not. *)
Definition promoted_second : json :=
  JObj [(lit "promotionalOffers",
         JArr [JObj [(lit "promotionalOffers", JArr [])];
               JObj [(lit "promotionalOffers", JArr [offer])]])].

Definition catalog (elements : list json) : json :=
  JObj [(lit "data",
         JObj [(lit "Catalog",
                JObj [(lit "searchStore",
                       JObj [(lit "elements", JArr elements)])])])].

Definition hollow_knight : json :=
  element "Hollow Knight" promoted_now
    [(lit "productSlug", JStr (lit "hollow-knight"))].

(** Titled correctly, with an offer in the second entry only. *)
Definition hollow_knight_later : json :=
  element "Hollow Knight" promoted_second
    [(lit "productSlug", JStr (lit "hollow-knight"))].

(** Promoted now, addressed by its [urlSlug] only. *)
Definition hollow_knight_url_slug : json :=
  element "Hollow Knight" promoted_now
    [(lit "urlSlug", JStr (lit "hollow-knight-offer"))].

(** Every upstream answers 200 with the given JSON document, after 7
    time units. *)
Definition stub (j : json) : world :=
  {| serve := fun _ => Response 200 (json_body j); elapsed := fun _ => 7 |}.

(** ** Vocabulary of the specification *)

(** The four adapter variants of the specification, section 2. *)
Inductive adapter := EpicFree | ItchFree | SteamFree | ArchiveSoftware.

Definition all_adapters : list adapter :=
  [EpicFree; ItchFree; SteamFree; ArchiveSoftware].

Definition source_name (a : adapter) : str :=
  match a with
  | EpicFree => epic_source
  | ItchFree => itch_source
  | SteamFree => steam_source
  | ArchiveSoftware => archive_source
  end.

(** Whether the adapter decodes the body as JSON. *)
Definition reads_json (a : adapter) : bool :=
  match a with
  | EpicFree | ArchiveSoftware => true
  | ItchFree | SteamFree => false
  end.

(** The one request the adapter issues for a query. *)
Definition adapter_request (a : adapter) (qry : str) : exc request :=
  match a with
  | EpicFree => Ok epic_request
  | ItchFree =>
      (u <- itch_search_url qry ;; Ok {| req_url := u; req_params := [] |})%exc
  | SteamFree =>
      (u <- steam_search_url qry ;; Ok {| req_url := u; req_params := [] |})%exc
  | ArchiveSoftware => Ok (archive_request qry)
  end.

(** One listing of an upstream response, whatever its shape. *)
Inductive item :=
| Element (el : json)
| Cell (c : game_cell)
| Row (r : result_row)
| Doc (d : json).

(** [SourceUnavailable], section 7: a network failure, a timeout, a
    non-success status or a body that does not decode. *)
Definition bad_status (code : N) : bool := (400 <=? code) && (code <? 600).

Definition unavailable (needs_json : bool) (rp : reply) : bool :=
  match rp with
  | ConnectionFailed | TimedOut => true
  | Response code b =>
      bad_status code
      || (needs_json && match as_json b with Some _ => false | None => true end)
  end.

(** The state after one blocking call. *)
Definition after_call (w : world) (rq : request) (s : st) : st :=
  {| clock := clock s + elapsed w rq; sent := sent s ++ [(clock s, rq)] |}.

(** Whitespace in [s] occurs only as single spaces; [after_ws] tells that
    the character before [s] is whitespace. *)
Fixpoint single_spaced (after_ws : bool) (s : str) : bool :=
  match s with
  | [] => true
  | c :: r =>
      if is_space c then (c =? SP) && negb after_ws && single_spaced true r
      else single_spaced false r
  end.

Definition no_leading_ws (s : str) : Prop := lstrip_by is_space s = s.
Definition no_trailing_ws (s : str) : Prop := rstrip_by is_space s = s.

(** [needle] occurs in [hay]. *)
Definition substring (needle hay : str) : Prop :=
  exists pre suf, hay = pre ++ needle ++ suf.

Definition field (v : json) (key : string) : option json :=
  match v with
  | JObj fields => dict_get fields (lit key)
  | _ => None
  end.

(** The entries of the promotions structure of a catalog element. *)
Definition offer_entries (el : json) : list json :=
  match field el "promotions" with
  | Some p =>
      match field p "promotionalOffers" with
      | Some (JArr entries) => entries
      | _ => []
      end
  | None => []
  end.

(** An entry whose promotional offers are not empty. *)
Definition entry_active (e : json) : bool :=
  match field e "promotionalOffers" with
  | Some offers => truthy offers
  | None => false
  end.

Definition some_entry_active (el : json) : bool :=
  existsb entry_active (offer_entries el).

Definition first_entry_active (el : json) : bool :=
  match offer_entries el with
  | e :: _ => entry_active e
  | [] => false
  end.

(** The title the Epic adapter reads off an element. *)
Definition element_title (el : json) : option str :=
  match el with
  | JObj _ =>
      match field el "title" with
      | Some (JStr s) => Some (strip s)
      | Some _ => None
      | None => Some []
      end
  | _ => None
  end.

(** A slug field holding a non-empty string. *)
Definition slug (el : json) (key : string) : option str :=
  match field el key with
  | Some (JStr (c :: s)) => Some (c :: s)
  | _ => None
  end.

Definition product_page (s : str) : str :=
  epic_product_url ++ strip_by (N.eqb SLASH) s.

Section Vocabulary.
Context `{Runtime}.
Variable w : world.

Definition run_adapter (a : adapter) : str -> M SourceResult :=
  match a with
  | EpicFree => search_epic_free_games w
  | ItchFree => search_itch_free w
  | SteamFree => search_steam_free w
  | ArchiveSoftware => search_internet_archive w
  end.

(** The upstream fails the adapter's call for this query. *)
Definition upstream_fails (a : adapter) (qry : str) : Prop :=
  exists rq, adapter_request a qry = Ok rq
             /\ unavailable (reads_json a) (serve w rq) = true.

(** The listings the upstream returns to the adapter, in its order. *)
Definition body_items (a : adapter) (b : body) : list item :=
  match a with
  | EpicFree =>
      match as_json b with
      | Some data =>
          match epic_elements data with
          | Ok els => map Element els
          | Raise _ => []
          end
      | None => []
      end
  | ItchFree => map Cell (game_cells b)
  | SteamFree => map Row (result_rows b)
  | ArchiveSoftware =>
      match as_json b with
      | Some data =>
          match archive_docs data with
          | Ok ds => map Doc ds
          | Raise _ => []
          end
      | None => []
      end
  end.

Definition upstream_items (a : adapter) (qry : str) : list item :=
  match adapter_request a qry with
  | Ok rq =>
      match serve w rq with
      | Response _ b => body_items a b
      | _ => []
      end
  | Raise _ => []
  end.

(** What the adapter makes of one listing. *)
Definition item_hit (qry : str) (it : item) : exc (option Hit) :=
  match it with
  | Element el => epic_element qry el
  | Cell c => itch_cell qry c
  | Row r => steam_row qry r
  | Doc d => archive_doc qry d
  end.

Definition yields (qry : str) (it : item) (h : Hit) : Prop :=
  item_hit qry it = Ok (Some h).

Definition is_match (qry : str) (it : item) : bool :=
  match item_hit qry it with
  | Ok (Some _) => true
  | _ => false
  end.

(** The hits are made, one by one and in order, from the listings that
    match. *)
Definition all_matches_kept (qry : str) (items : list item)
    (found : list Hit) : Prop :=
  Forall2 (yields qry) (List.filter (is_match qry) items) found.

(** The hits are made, one by one and in order, from a subsequence of
    the upstream listings. *)
Definition in_upstream_order (qry : str) (items : list item)
    (found : list Hit) : Prop :=
  exists kept, kept `sublist_of` items /\ Forall2 (yields qry) kept found.

(** What every adapter guarantees of its result, [rq] being its request. *)
Definition adapter_post (a : adapter) (qry : str) (rq : request)
    (r : SourceResult) : Prop :=
  source r = source_name a
  /\ more_url r <> []
  /\ total_hits r = length (hits r)
  /\ preview r = None
  /\ (unavailable (reads_json a) (serve w rq) = true -> hits r = [])
  /\ (hits r = [] \/ all_matches_kept qry (upstream_items a qry) (hits r)).

(** A rejection the caller sees as a client error. *)
Definition client_error {A} (r : exc A) : Prop :=
  exists code detail,
    r = Raise (HTTPException code detail) /\ 400 <= code < 500.

(** An element counts as a hit of the Epic adapter. *)
Definition counts_as_hit (qry : str) (el : json) : Prop :=
  exists h, epic_element qry el = Ok (Some h).

(** Containment of the query in a title, case-insensitively. *)
Definition title_matches (qry ttl : str) : Prop :=
  substring (lower qry) (lower ttl).

(** The hit rule of the Epic adapter as the specification words it. *)
Definition hit_rule_as_specified (qry : str) (el : json) : Prop :=
  counts_as_hit qry el <->
  (exists ttl, element_title el = Some ttl /\ title_matches qry ttl)
  /\ some_entry_active el = true.

(** The link rule of the Epic adapter as the specification words it. *)
Definition link_rule_as_specified (qry : str) (el : json) : Prop :=
  forall h, epic_element qry el = Ok (Some h) ->
    match slug el "productSlug" with
    | Some s => url h = product_page s
    | None => url h = epic_listing_url
    end.

(** Time a computation takes from a state. *)
Definition latency {A} (m : M A) (s : st) : N := clock (snd (m s)) - clock s.

Definition adapter_latency (a : adapter) (qry : str) : N :=
  match adapter_request a qry with
  | Ok rq => elapsed w rq
  | Raise _ => 0
  end.

Definition slowest (qry : str) : N :=
  fold_right N.max 0 (map (fun a => adapter_latency a qry) all_adapters).

Definition total (qry : str) : N :=
  fold_right N.add 0 (map (fun a => adapter_latency a qry) all_adapters).

(** The latency of concurrent adapter calls, as the specification
    describes it: that of the slowest adapter. *)
Definition concurrent_latency (q : str) (s : st) : Prop :=
  latency (search_games w q) s = slowest (normalize_query q).

End Vocabulary.

(** ** Vocabulary for further properties of the code *)


Definition non_space (c : char) : bool := negb (is_space c).

(** A printable ASCII character other than the space. *)
Definition is_graphic (c : char) : bool := (33 <=? c) && (c <=? 126).

(** The hits a loop body makes of the items it does not skip. *)
Definition hits_of {A} (body : A -> exc (option Hit)) (items : list A)
    : list Hit :=
  flat_map (fun x => match body x with Ok (Some h) => [h] | _ => [] end) items.

(** The body of a loop raises on this item. *)
Definition raises {A B} (body : A -> exc B) (x : A) : Prop :=
  exists e, body x = Raise e.

(** A hit that answers the query: it has a title, the title contains the
    query, case apart, and it has a link. *)
Definition answers `{Runtime} (qry : str) (h : Hit) : Prop :=
  title h <> []
  /\ contains (lower qry) (lower (title h)) = true
  /\ url h <> [].

Definition epic_site : str := lit "https://store.epicgames.com/".

(** Every upstream answers 200 with the given body, after 7 time units. *)
Definition page (b : body) : world :=
  {| serve := fun _ => Response 200 b; elapsed := fun _ => 7 |}.

(** An itch.io listing: a card, a card without link, a card whose link
    has no target, a card of another game, a second card. *)
Definition itch_listing : body :=
  {| as_json := None;
     game_cells :=
       [ {| title_el := Some (lit "Doom Clone");
            link_el := Some (Some (lit "https://a.itch.io/doom-clone")) |};
         {| title_el := Some (lit "Doom Alone"); link_el := None |};
         {| title_el := Some (lit "Doomed"); link_el := Some None |};
         {| title_el := Some (lit "Tetris");
            link_el := Some (Some (lit "https://b.itch.io/tetris")) |};
         {| title_el := None;
            link_el := Some (Some (lit "https://c.itch.io/untitled")) |};
         {| title_el := Some (lit "DOOM 64k");
            link_el := Some (Some (lit "https://d.itch.io/doom-64k")) |} ];
     result_rows := [] |}.

(** Archive documents: one well formed, one whose title is a list. *)
Definition archive_answer (docs : list json) : json :=
  JObj [(lit "response", JObj [(lit "docs", JArr docs)])].

Definition doom_doc : json :=
  JObj [(lit "identifier", JStr (lit "doom-shareware"));
        (lit "title", JStr (lit "Doom (shareware)"))].

Definition listed_title_doc : json :=
  JObj [(lit "identifier", JStr (lit "doom-wads"));
        (lit "title", JArr [JStr (lit "Doom WADs")])].

(** * Properties *)

(** ** Strings *)

Section StringFacts.

Lemma eqb_nil (s : str) : eqb s [] = true <-> s = [].
Proof. unfold eqb. apply bool_decide_eq_true. Qed.

Lemma eqb_nil_false (s : str) : eqb s [] = false <-> s <> [].
Proof. unfold eqb. apply bool_decide_eq_false. Qed.

Lemma is_space_SP : is_space SP = true.
Proof. reflexivity. Qed.

Lemma starts_with_spec (p s : str) :
  starts_with p s = true <-> exists suf, s = p ++ suf.
Proof.
  revert s. induction p as [|a p IH]; intros s; simpl.
  - split; [intros _; by exists s | done].
  - destruct s as [|b s].
    + split; [done | intros [suf Hs]; discriminate].
    + rewrite andb_true_iff, N.eqb_eq, IH. split.
      * intros [-> [suf ->]]. by exists suf.
      * intros [suf Hs]. injection Hs as -> ->. eauto.
Qed.

Lemma contains_spec (p s : str) : contains p s = true <-> substring p s.
Proof.
  unfold substring. induction s as [|b s IH]; simpl.
  - rewrite orb_false_r, starts_with_spec. split.
    + intros [suf Hs]. by exists [], suf.
    + intros (pre & suf & Hs). symmetry in Hs.
      apply app_eq_nil in Hs as [-> Hs]. apply app_eq_nil in Hs as [-> ->].
      by exists [].
  - rewrite orb_true_iff, IH, starts_with_spec. split.
    + intros [[suf Hs] | (pre & suf & Hs)].
      * by exists [], suf.
      * exists (b :: pre), suf. by rewrite Hs.
    + intros (pre & suf & Hs). destruct pre as [|c pre].
      * left. by exists suf.
      * right. injection Hs as -> ->. eauto.
Qed.

Lemma contains_nonempty (p s : str) :
  p <> [] -> contains p s = true -> s <> [].
Proof.
  intros Hp Hc ->. apply contains_spec in Hc as (pre & suf & Hs).
  symmetry in Hs. apply app_eq_nil in Hs as [_ Hs].
  apply app_eq_nil in Hs as [Hs _]. done.
Qed.

(** *** Stripping *)

Variable p : char -> bool.

Lemma lstrip_by_head (s : str) :
  match lstrip_by p s with
  | [] => True
  | c :: _ => p c = false
  end.
Proof.
  induction s as [|c r IH]; simpl; [done|].
  destruct (p c) eqn:E; [done | by rewrite E].
Qed.

Lemma lstrip_by_fixed (s : str) :
  match s with [] => True | c :: _ => p c = false end ->
  lstrip_by p s = s.
Proof. destruct s as [|c r]; simpl; [done|]. by intros ->. Qed.

Lemma rstrip_by_idemp (s : str) : rstrip_by p (rstrip_by p s) = rstrip_by p s.
Proof.
  induction s as [|c r IH]; simpl; [done|].
  destruct (rstrip_by p r) as [|d r'] eqn:E.
  - destruct (p c) eqn:Ec; simpl; [done | by rewrite Ec].
  - simpl in *. by rewrite IH.
Qed.

Lemma rstrip_by_head (s : str) :
  match s with [] => True | c :: _ => p c = false end ->
  match rstrip_by p s with [] => s = [] | c :: _ => p c = false end.
Proof.
  destruct s as [|c r]; simpl; [done|]. intros Hc.
  destruct (rstrip_by p r); [by rewrite Hc | done].
Qed.

Lemma strip_by_idemp (s : str) : strip_by p (strip_by p s) = strip_by p s.
Proof.
  unfold strip_by.
  pose proof (rstrip_by_head (lstrip_by p s) (lstrip_by_head s)) as Hh.
  rewrite (lstrip_by_fixed (rstrip_by p (lstrip_by p s))).
  - apply rstrip_by_idemp.
  - destruct (rstrip_by p (lstrip_by p s)); done.
Qed.

End StringFacts.

(** ** Normalisation *)

Section NormalizeFacts.

Lemma single_spaced_weaken (b : bool) (s : str) :
  single_spaced b s = true -> single_spaced false s = true.
Proof.
  destruct s as [|c r]; simpl; [done|].
  destruct (is_space c); [|done].
  rewrite !andb_true_iff. intros [[-> _] ->]. done.
Qed.

Lemma re_sub_ws_single_spaced (q : str) (b : bool) :
  single_spaced b (re_sub_ws b q) = true.
Proof.
  revert b. induction q as [|c r IH]; intros b; simpl; [done|].
  destruct (is_space c) eqn:Ec.
  - destruct b; [apply IH|]. simpl. apply IH.
  - simpl. rewrite Ec. apply IH.
Qed.

Lemma re_sub_ws_fixed (s : str) (b : bool) :
  single_spaced b s = true -> re_sub_ws b s = s.
Proof.
  revert b. induction s as [|c r IH]; intros b; simpl; [done|].
  destruct (is_space c) eqn:Ec.
  - rewrite !andb_true_iff, N.eqb_eq, negb_true_iff.
    intros [[-> ->] Hr]. by rewrite (IH true Hr).
  - intros Hr. by rewrite (IH false Hr).
Qed.

Lemma lstrip_single_spaced (s : str) (b : bool) :
  single_spaced b s = true -> single_spaced false (lstrip_by is_space s) = true.
Proof.
  revert b. induction s as [|c r IH]; intros b; simpl; [done|].
  destruct (is_space c) eqn:Ec.
  - rewrite !andb_true_iff. intros [_ Hr]. by apply (IH true).
  - intros Hr. simpl. by rewrite Ec.
Qed.

Lemma single_spaced_cons (b : bool) (c : char) (r : str) :
  single_spaced b (c :: r) =
  if is_space c then (c =? SP) && negb b && single_spaced true r
  else single_spaced false r.
Proof. done. Qed.

Lemma rstrip_single_spaced (s : str) (b : bool) :
  single_spaced b s = true -> single_spaced b (rstrip_by is_space s) = true.
Proof.
  revert b. induction s as [|c r IH]; intros b; [done|].
  rewrite single_spaced_cons. simpl rstrip_by.
  destruct (is_space c) eqn:Ec.
  - rewrite !andb_true_iff. intros [Hc Hr]. specialize (IH true Hr).
    destruct (rstrip_by is_space r) as [|d r']; [done|].
    rewrite single_spaced_cons, Ec, !andb_true_iff. done.
  - intros Hr. specialize (IH false Hr).
    destruct (rstrip_by is_space r) as [|d r'];
      by rewrite single_spaced_cons, Ec.
Qed.

Lemma normalize_single_spaced (q : str) :
  single_spaced false (normalize_query q) = true.
Proof.
  unfold normalize_query, strip, strip_by.
  apply rstrip_single_spaced, (lstrip_single_spaced _ false),
    re_sub_ws_single_spaced.
Qed.

Lemma normalize_no_leading_ws (q : str) : no_leading_ws (normalize_query q).
Proof.
  unfold no_leading_ws, normalize_query, strip, strip_by.
  apply lstrip_by_fixed.
  pose proof (rstrip_by_head is_space _
                (lstrip_by_head is_space (re_sub_ws false q))) as Hh.
  destruct (rstrip_by is_space _); done.
Qed.

Lemma normalize_no_trailing_ws (q : str) : no_trailing_ws (normalize_query q).
Proof. apply rstrip_by_idemp. Qed.

Lemma normalize_idempotent (q : str) :
  normalize_query (normalize_query q) = normalize_query q.
Proof.
  unfold normalize_query at 1.
  rewrite (re_sub_ws_fixed _ false (normalize_single_spaced q)).
  unfold normalize_query, strip. apply strip_by_idemp.
Qed.

(** *** Words *)

Lemma push_word_space (pr : str * list str) :
  push_word ([], push_word pr) = push_word pr.
Proof. done. Qed.

Lemma split_aux_re_sub_ws (q : str) (b : bool) :
  push_word (split_aux (re_sub_ws b q)) = push_word (split_aux q)
  /\ (b = false -> split_aux (re_sub_ws b q) = split_aux q).
Proof.
  revert b. induction q as [|c r IH]; intros b; simpl; [done|].
  destruct (is_space c) eqn:Ec.
  - destruct b.
    + split; [|done]. rewrite push_word_space. apply IH.
    + simpl. destruct (IH true) as [-> _]. done.
  - simpl. rewrite Ec. destruct (IH false) as [_ ->]; done.
Qed.

Lemma split_ws_lstrip (s : str) :
  split_ws (lstrip_by is_space s) = split_ws s.
Proof.
  unfold split_ws. induction s as [|c r IH]; simpl; [done|].
  destruct (is_space c) eqn:Ec; [|simpl; by rewrite Ec].
  by rewrite push_word_space.
Qed.

Lemma split_aux_rstrip (s : str) :
  split_aux (rstrip_by is_space s) = split_aux s.
Proof.
  induction s as [|c r IH]; simpl; [done|].
  destruct (rstrip_by is_space r) as [|d r'] eqn:E.
  - simpl in IH. rewrite <- IH.
    destruct (is_space c) eqn:Ec; simpl; [done | by rewrite Ec].
  - change (split_aux (c :: d :: r')) with
      (if is_space c then ([], push_word (split_aux (d :: r')))
       else (c :: fst (split_aux (d :: r')), snd (split_aux (d :: r')))).
    by rewrite IH.
Qed.

Lemma split_ws_normalize (q : str) : split_ws (normalize_query q) = split_ws q.
Proof.
  unfold normalize_query, strip, strip_by, split_ws.
  rewrite split_aux_rstrip.
  change (push_word (split_aux (lstrip_by is_space (re_sub_ws false q))))
    with (split_ws (lstrip_by is_space (re_sub_ws false q))).
  rewrite split_ws_lstrip. unfold split_ws.
  apply split_aux_re_sub_ws.
Qed.

Lemma no_trailing_ws_tail (c : char) (r : str) :
  no_trailing_ws (c :: r) ->
  no_trailing_ws r /\ (is_space c = true -> r <> []).
Proof.
  unfold no_trailing_ws. simpl.
  destruct (rstrip_by is_space r) as [|d r'] eqn:E.
  - destruct (is_space c); [done|]. intros [= <-]. done.
  - intros [= <-]. split; [done|]. done.
Qed.

Lemma single_spaced_render (s : str) (b : bool) :
  single_spaced b s = true -> no_trailing_ws s ->
  s = fst (split_aux s) ++ flat_map (fun v => SP :: v) (snd (split_aux s)).
Proof.
  revert b. induction s as [|c r IH]; intros b; simpl; [done|].
  intros Hs Ht. apply no_trailing_ws_tail in Ht as [Ht Hne].
  destruct (is_space c) eqn:Ec.
  - apply andb_true_iff in Hs as [Hs Hr].
    apply andb_true_iff in Hs as [->%N.eqb_eq _].
    specialize (IH true Hr Ht). specialize (Hne eq_refl).
    destruct r as [|d r]; [done|]. simpl in *.
    destruct (is_space d) eqn:Ed; [by rewrite andb_false_r in Hr|].
    simpl in *. by rewrite <- IH.
  - simpl. by rewrite <- (IH false Hs Ht).
Qed.

Lemma normalize_join_split (q : str) :
  normalize_query q = join_sp (split_ws q).
Proof.
  rewrite <- split_ws_normalize.
  pose proof (single_spaced_render _ _ (normalize_single_spaced q)
                (normalize_no_trailing_ws q)) as Hr.
  pose proof (normalize_no_leading_ws q) as Hl.
  unfold split_ws, push_word.
  destruct (split_aux (normalize_query q)) as [wd ws]. simpl in *.
  destruct wd as [|c wd]; [|done].
  destruct ws as [|v ws]; [done|].
  simpl in Hr. rewrite Hr in Hl. unfold no_leading_ws in Hl. simpl in Hl.
  exfalso. revert Hl. generalize (v ++ flat_map (fun v => SP :: v) ws).
  intros l Hl. 
  assert (length (lstrip_by is_space l) <= length l)%nat as Hlen.
  { clear. induction l as [|a l IH]; simpl; [done|].
    destruct (is_space a); simpl; lia. }
  rewrite Hl in Hlen. simpl in Hlen. lia.
Qed.

End NormalizeFacts.

(** ** Encoding *)

Section EncodingFacts.

Lemma scalar_str_app (a b : str) :
  scalar_str a -> scalar_str b -> scalar_str (a ++ b).
Proof. unfold scalar_str. apply Forall_app_2. Qed.

Lemma scalar_str_forallb (s : str) :
  scalar_str s <-> forallb is_scalar s = true.
Proof.
  unfold scalar_str. rewrite forallb_forall, Forall_forall.
  split; intros Hs c Hc; apply Hs; by apply list_elem_of_In.
Qed.

Lemma re_sub_ws_scalar (q : str) (b : bool) :
  scalar_str q -> scalar_str (re_sub_ws b q).
Proof.
  unfold scalar_str. intros Hq. revert b.
  induction Hq as [|c r Hc Hr IH]; intros b; simpl; [constructor|].
  destruct (is_space c); [destruct b|]; repeat constructor; auto.
Qed.

Lemma lstrip_by_scalar (p : char -> bool) (s : str) :
  scalar_str s -> scalar_str (lstrip_by p s).
Proof.
  unfold scalar_str. induction 1 as [|c r Hc Hr IH]; simpl; [constructor|].
  destruct (p c); [done | by constructor].
Qed.

Lemma rstrip_by_scalar (p : char -> bool) (s : str) :
  scalar_str s -> scalar_str (rstrip_by p s).
Proof.
  unfold scalar_str. induction 1 as [|c r Hc Hr IH]; simpl; [constructor|].
  destruct (rstrip_by p r); [destruct (p c); by repeat constructor|].
  by constructor.
Qed.

Lemma normalize_scalar (q : str) :
  scalar_str q -> scalar_str (normalize_query q).
Proof.
  intros Hq. unfold normalize_query, strip, strip_by.
  by apply rstrip_by_scalar, lstrip_by_scalar, re_sub_ws_scalar.
Qed.

Lemma lor_byte (a b : N) : a < 256 -> b < 256 -> N.lor a b < 256.
Proof.
  intros Ha Hb. destruct (N.eq_dec (N.lor a b) 0) as [->|Hne]; [lia|].
  change 256 with (2 ^ 8). apply N.log2_lt_pow2; [lia|].
  rewrite N.log2_lor. apply N.max_lub_lt.
  - destruct (N.eq_dec a 0) as [->|Ha0]; [done|].
    apply N.log2_lt_pow2; [lia | done].
  - destruct (N.eq_dec b 0) as [->|Hb0]; [done|].
    apply N.log2_lt_pow2; [lia | done].
Qed.

Lemma shiftr_bound (c n k : N) : c < k * 2 ^ n -> N.shiftr c n < k.
Proof.
  intros Hc. rewrite N.shiftr_div_pow2.
  apply N.Div0.div_lt_upper_bound. lia.
Qed.

Lemma continuation_byte (x : N) : N.lor 0x80 (N.land x 0x3F) < 256.
Proof.
  apply lor_byte; [lia|]. pose proof (N.land_le_r x 0x3F). lia.
Qed.

Lemma utf8_bytes (c : char) (bytes : list N) :
  utf8 c = Ok bytes -> Forall (fun b => b < 256) bytes.
Proof.
  unfold utf8.
  destruct (c <? 0x80) eqn:E1.
  { intros [= <-]. apply N.ltb_lt in E1. repeat constructor. lia. }
  destruct (c <? 0x800) eqn:E2.
  { intros [= <-]. apply N.ltb_lt in E2. repeat constructor.
    - apply lor_byte; [lia|].
      assert (N.shiftr c 6 < 32) by (apply shiftr_bound; simpl; lia). lia.
    - apply continuation_byte. }
  destruct (is_scalar c) eqn:E3; simpl; [|done].
  destruct (c <? 0x10000) eqn:E4.
  { intros [= <-]. apply N.ltb_lt in E4. repeat constructor.
    - apply lor_byte; [lia|].
      assert (N.shiftr c 12 < 16) by (apply shiftr_bound; simpl; lia). lia.
    - apply continuation_byte.
    - apply continuation_byte. }
  intros [= <-]. repeat constructor; try apply continuation_byte.
  apply lor_byte; [lia|].
  assert (c < 0x110000).
  { unfold is_scalar in E3. apply N.ltb_ge in E4.
    apply orb_true_iff in E3 as [E3|E3].
    - apply N.ltb_lt in E3. lia.
    - apply andb_true_iff in E3 as [_ E3]. by apply N.ltb_lt in E3. }
  assert (N.shiftr c 18 < 5) by (apply shiftr_bound; simpl; lia). lia.
Qed.

Lemma utf8_scalar (c : char) :
  is_scalar c = true -> exists bytes, utf8 c = Ok bytes.
Proof.
  intros Hc. unfold utf8. rewrite Hc. simpl.
  destruct (c <? 0x80); [eauto|].
  destruct (c <? 0x800); [eauto|].
  destruct (c <? 0x10000); eauto.
Qed.

Lemma hex_digit_ascii (d : N) : d < 16 -> hex_digit d < 128.
Proof. unfold hex_digit. destruct (d <? 10) eqn:E; [apply N.ltb_lt in E|]; lia. Qed.

Lemma ascii_scalar (c : char) : c < 128 -> is_scalar c = true.
Proof.
  intros Hc. unfold is_scalar. apply orb_true_iff. left. apply N.ltb_lt. lia.
Qed.

Lemma quote_byte_scalar (b : N) : b < 256 -> scalar_str (quote_byte b).
Proof.
  intros Hb. unfold quote_byte, scalar_str.
  destruct (always_safe b) eqn:E.
  - repeat constructor. apply ascii_scalar.
    unfold always_safe in E.
    repeat (apply orb_true_iff in E as [E|E]);
      try (apply andb_true_iff in E as [_ E]; apply N.leb_le in E; lia);
      apply N.eqb_eq in E; lia.
  - repeat constructor.
    + apply ascii_scalar, hex_digit_ascii, shiftr_bound. simpl. lia.
    + apply ascii_scalar, hex_digit_ascii.
      pose proof (N.land_le_r b 0xF). lia.
Qed.

Lemma quote_scalar (s : str) :
  scalar_str s -> exists quoted, quote s = Ok quoted /\ scalar_str quoted.
Proof.
  unfold scalar_str at 1. induction 1 as [|c r Hc Hr IH]; simpl.
  - exists []. split; [done | constructor].
  - destruct (utf8_scalar c Hc) as [bytes Hb]. rewrite Hb. simpl.
    destruct IH as (rest & -> & Hrest). simpl.
    eexists. split; [done|]. apply scalar_str_app; [|done].
    apply utf8_bytes in Hb. clear -Hb.
    induction Hb as [|b bs Hb _ IH]; simpl; [constructor|].
    apply scalar_str_app; [by apply quote_byte_scalar | done].
Qed.

End EncodingFacts.

(** ** Adapters *)

Section AdapterFacts.
Context `{Runtime}.
Variable w : world.

Lemma requests_get_run (rq : request) (s : st) :
  encodable rq = true ->
  requests_get w rq s =
  (match serve w rq with
   | Response code b => Ok (code, b)
   | _ => Raise RequestException
   end, after_call w rq s).
Proof.
  intros He. unfold requests_get, after_call. rewrite He.
  destruct (serve w rq); done.
Qed.

Lemma List_filter_sublist {A} (f : A -> bool) (l : list A) :
  List.filter f l `sublist_of` l.
Proof.
  induction l as [|x l IH]; simpl; [constructor|].
  destruct (f x); by constructor.
Qed.

Lemma for_each_matches {A} (inj : A -> item) (qry : str)
    (body : A -> exc (option Hit)) (items : list A) (acc out : list Hit) :
  (forall x, item_hit qry (inj x) = body x) ->
  for_each body items acc = Ok out ->
  exists new, out = acc ++ new
    /\ all_matches_kept qry (map inj items) new.
Proof.
  intros Hb. unfold all_matches_kept. revert acc.
  induction items as [|x items IH]; intros acc; simpl.
  - intros [= <-]. exists []. by rewrite app_nil_r.
  - unfold is_match at 1. rewrite Hb.
    destruct (body x) as [[h|]|e] eqn:Ex; [| |done].
    + intros (new & -> & Hnew)%IH. exists (h :: new).
      split; [by rewrite <- app_assoc|].
      constructor; [|done]. unfold yields. by rewrite Hb.
    + apply IH.
Qed.

Lemma matches_in_order (qry : str) (items : list item) (found : list Hit) :
  found = [] \/ all_matches_kept qry items found ->
  in_upstream_order qry items found.
Proof.
  intros [-> | Hk].
  - exists []. split; [apply sublist_nil_l | constructor].
  - exists (List.filter (is_match qry) items).
    split; [apply List_filter_sublist | done].
Qed.

Lemma app_nonempty (a b : str) : a <> [] -> a ++ b <> [].
Proof. destruct a; [done | discriminate]. Qed.

Lemma post_failure (a : adapter) (qry : str) (rq : request) (u : str) :
  u <> [] ->
  adapter_post w a qry rq
    {| source := source_name a; more_url := u; hits := [];
       total_hits := 0; preview := None |}.
Proof. intros Hu. unfold adapter_post. simpl. auto 10. Qed.

Lemma post_success (a : adapter) (qry : str) (rq : request) (u : str)
    (found : list Hit) :
  u <> [] ->
  unavailable (reads_json a) (serve w rq) = false ->
  all_matches_kept qry (upstream_items w a qry) found ->
  adapter_post w a qry rq
    {| source := source_name a; more_url := u; hits := found;
       total_hits := length found; preview := None |}.
Proof.
  intros Hu Hav Hk. unfold adapter_post. simpl.
  repeat split; auto. by rewrite Hav.
Qed.

Lemma epic_spec (qry : str) (s : st) :
  exists r,
    search_epic_free_games w qry s = (Ok r, after_call w epic_request s)
    /\ adapter_post w EpicFree qry epic_request r.
Proof.
  unfold search_epic_free_games, try_except, bind, lift, ret.
  rewrite requests_get_run by reflexivity.
  assert (epic_more_url <> []) as Hu by done.
  destruct (serve w epic_request) as [| |code b] eqn:Es;
    try (eexists; split; [done | by apply (post_failure EpicFree)]).
  unfold raise_for_status, r_json. simpl.
  destruct ((400 <=? code) && (code <? 600)) eqn:Ec;
    try (eexists; split; [done | by apply (post_failure EpicFree)]).
  destruct (as_json b) as [data|] eqn:Ej;
    try (eexists; split; [done | by apply (post_failure EpicFree)]).
  destruct (epic_hits qry data) as [found|e] eqn:Eh;
    try (eexists; split; [done | by apply (post_failure EpicFree)]).
  eexists; split; [done|]. apply (post_success EpicFree); [done| |].
  - rewrite Es. simpl. unfold bad_status. by rewrite Ec, Ej.
  - unfold upstream_items. simpl. rewrite Es. simpl. rewrite Ej.
    unfold epic_hits in Eh. destruct (epic_elements data) as [els|]; [|done].
    simpl in Eh.
    by destruct (for_each_matches Element qry _ _ _ _ (fun _ => eq_refl) Eh)
      as (new & -> & Hnew).
Qed.

Lemma url_encodable (u : str) :
  scalar_str u -> encodable {| req_url := u; req_params := [] |} = true.
Proof.
  intros Hu. unfold encodable. simpl.
  by rewrite (proj1 (scalar_str_forallb _) Hu).
Qed.

Lemma itch_spec (qry quoted : str) (s : st) :
  quote qry = Ok quoted -> scalar_str quoted ->
  let rq := {| req_url := itch_search_prefix ++ quoted; req_params := [] |} in
  exists r,
    search_itch_free w qry s = (Ok r, after_call w rq s)
    /\ adapter_request ItchFree qry = Ok rq
    /\ adapter_post w ItchFree qry rq r.
Proof.
  intros Hq Hs rq.
  assert (adapter_request ItchFree qry = Ok rq) as Hrq.
  { unfold adapter_request, itch_search_url. by rewrite Hq. }
  assert (itch_search_prefix ++ quoted <> []) as Hu by by apply app_nonempty.
  enough (exists r,
            search_itch_free w qry s = (Ok r, after_call w rq s)
            /\ adapter_post w ItchFree qry rq r) as (r & ? & ?) by eauto.
  unfold search_itch_free, itch_search_url, try_except, bind, lift, ret.
  rewrite Hq. cbn [exc_bind]. fold rq.
  rewrite requests_get_run.
  2:{ apply (url_encodable (itch_search_prefix ++ quoted)), scalar_str_app;
        [by apply scalar_str_forallb | done]. }
  destruct (serve w rq) as [| |code b] eqn:Es;
    try (eexists; split; [done | by apply (post_failure ItchFree)]).
  unfold raise_for_status. cbn [fst snd exc_bind].
  destruct ((400 <=? code) && (code <? 600)) eqn:Ec;
    try (eexists; split; [done | by apply (post_failure ItchFree)]).
  destruct (for_each (itch_cell qry) (game_cells b) []) as [found|e] eqn:Eh;
    try (eexists; split; [done | by apply (post_failure ItchFree)]).
  eexists; split; [done|].
  apply (post_success ItchFree); [done| |].
  - rewrite Es. cbn [unavailable reads_json]. unfold bad_status.
    by rewrite Ec.
  - unfold upstream_items. rewrite Hrq, Es. cbn [body_items].
    by destruct (for_each_matches Cell qry _ _ _ _ (fun _ => eq_refl) Eh)
      as (new & -> & Hnew).
Qed.

Lemma steam_spec (qry quoted : str) (s : st) :
  quote qry = Ok quoted -> scalar_str quoted ->
  let rq := {| req_url := steam_search_prefix ++ quoted ++ steam_search_suffix;
               req_params := [] |} in
  exists r,
    search_steam_free w qry s = (Ok r, after_call w rq s)
    /\ adapter_request SteamFree qry = Ok rq
    /\ adapter_post w SteamFree qry rq r.
Proof.
  intros Hq Hs rq.
  assert (adapter_request SteamFree qry = Ok rq) as Hrq.
  { unfold adapter_request, steam_search_url. by rewrite Hq. }
  assert (steam_search_prefix ++ quoted ++ steam_search_suffix <> [])
    as Hu by by apply app_nonempty.
  enough (exists r,
            search_steam_free w qry s = (Ok r, after_call w rq s)
            /\ adapter_post w SteamFree qry rq r) as (r & ? & ?) by eauto.
  unfold search_steam_free, steam_search_url, try_except, bind, lift, ret.
  rewrite Hq. cbn [exc_bind]. fold rq.
  rewrite requests_get_run.
  2:{ apply (url_encodable
                 (steam_search_prefix ++ quoted ++ steam_search_suffix)),
        scalar_str_app; [by apply scalar_str_forallb|].
      apply scalar_str_app; [done | by apply scalar_str_forallb]. }
  destruct (serve w rq) as [| |code b] eqn:Es;
    try (eexists; split; [done | by apply (post_failure SteamFree)]).
  unfold raise_for_status. cbn [fst snd exc_bind].
  destruct ((400 <=? code) && (code <? 600)) eqn:Ec;
    try (eexists; split; [done | by apply (post_failure SteamFree)]).
  destruct (for_each (steam_row qry) (result_rows b) []) as [found|e] eqn:Eh;
    try (eexists; split; [done | by apply (post_failure SteamFree)]).
  eexists; split; [done|].
  apply (post_success SteamFree); [done| |].
  - rewrite Es. cbn [unavailable reads_json]. unfold bad_status.
    by rewrite Ec.
  - unfold upstream_items. rewrite Hrq, Es. cbn [body_items].
    by destruct (for_each_matches Row qry _ _ _ _ (fun _ => eq_refl) Eh)
      as (new & -> & Hnew).
Qed.

Lemma archive_encodable (qry : str) :
  scalar_str qry -> encodable (archive_request qry) = true.
Proof.
  intros Hq. unfold encodable, archive_request, archive_params.
  cbn [req_url req_params forallb snd].
  assert (scalar_str (qry ++ lit " AND mediatype:(software)")) as Hs.
  { apply scalar_str_app; [done | by apply scalar_str_forallb]. }
  by rewrite (proj1 (scalar_str_forallb _) Hs).
Qed.

Lemma archive_spec (qry quoted : str) (s : st) :
  scalar_str qry -> quote qry = Ok quoted ->
  let rq := archive_request qry in
  exists r,
    search_internet_archive w qry s = (Ok r, after_call w rq s)
    /\ adapter_post w ArchiveSoftware qry rq r
    /\ (more_url r = archive_search_prefix ++ quoted ++ archive_media_filter
        \/ more_url r = archive_search_prefix ++ quoted /\ hits r = [])
    /\ (unavailable true (serve w rq) = true ->
        more_url r = archive_search_prefix ++ quoted).
Proof.
  intros Hs Hq rq.
  assert (archive_search_prefix ++ quoted <> []) as Hu1
    by by apply app_nonempty.
  assert (archive_search_prefix ++ quoted ++ archive_media_filter <> [])
    as Hu2 by by apply app_nonempty.
  unfold search_internet_archive, try_except, bind, lift, ret.
  rewrite requests_get_run by by apply archive_encodable.
  fold rq. rewrite Hq.
  destruct (serve w rq) as [| |code b] eqn:Es;
    try (eexists; split; [done | split; [by apply (post_failure ArchiveSoftware)|];
                          split; [by right | done]]).
  unfold raise_for_status, r_json. cbn [fst snd exc_bind].
  destruct ((400 <=? code) && (code <? 600)) eqn:Ec;
    try (eexists; split; [done | split; [by apply (post_failure ArchiveSoftware)|];
                          split; [by right | done]]).
  destruct (as_json b) as [data|] eqn:Ej;
    try (eexists; split; [done | split; [by apply (post_failure ArchiveSoftware)|];
                          split; [by right | done]]).
  destruct (archive_hits qry data) as [found|e] eqn:Eh;
    try (eexists; split; [done | split; [by apply (post_failure ArchiveSoftware)|];
                          split; [by right | done]]).
  eexists; split; [done|]. split; [|split; [by left|]].
  - apply (post_success ArchiveSoftware); [done| |].
    + fold rq. rewrite Es. cbn [unavailable reads_json]. unfold bad_status.
      by rewrite Ec, Ej.
    + unfold upstream_items. cbn [adapter_request]. fold rq. rewrite Es.
      cbn [body_items]. rewrite Ej.
      unfold archive_hits in Eh.
      destruct (archive_docs data) as [ds|]; [|done]. cbn [exc_bind] in Eh.
      by destruct (for_each_matches Doc qry _ _ _ _ (fun _ => eq_refl) Eh)
        as (new & -> & Hnew).
  - cbn [unavailable]. unfold bad_status. by rewrite Ec, Ej.
Qed.

End AdapterFacts.

(** ** The endpoint *)

Section EndpointFacts.
Context `{Runtime}.
Variable w : world.

Lemma search_games_empty (raw : str) (s : st) :
  normalize_query raw = [] ->
  search_games w raw s
  = (Raise (HTTPException 400 (lit "Query cannot be empty")), s).
Proof.
  intros Hn. unfold search_games. rewrite Hn. done.
Qed.

Lemma adapter_spec (a : adapter) (qry : str) (s : st) :
  scalar_str qry ->
  exists rq r,
    adapter_request a qry = Ok rq
    /\ run_adapter w a qry s = (Ok r, after_call w rq s)
    /\ adapter_post w a qry rq r.
Proof.
  intros Hs. destruct (quote_scalar qry Hs) as (quoted & Hq & Hqs).
  destruct a; cbn [run_adapter].
  - destruct (epic_spec w qry s) as (r & Hr & Hp). by exists epic_request, r.
  - destruct (itch_spec w qry quoted s Hq Hqs) as (r & Hr & Hrq & Hp). eauto.
  - destruct (steam_spec w qry quoted s Hq Hqs) as (r & Hr & Hrq & Hp). eauto.
  - destruct (archive_spec w qry quoted s Hs Hq) as (r & Hr & Hp & _).
    by exists (archive_request qry), r.
Qed.

Lemma search_games_run (raw : str) (s : st) :
  scalar_str raw -> normalize_query raw <> [] ->
  let qry := normalize_query raw in
  exists rq1 rq2 rq3 rq4 r1 r2 r3 r4,
    let s1 := after_call w rq1 s in
    let s2 := after_call w rq2 s1 in
    let s3 := after_call w rq3 s2 in
    let s4 := after_call w rq4 s3 in
    (adapter_request EpicFree qry = Ok rq1
     /\ adapter_request ItchFree qry = Ok rq2
     /\ adapter_request SteamFree qry = Ok rq3
     /\ adapter_request ArchiveSoftware qry = Ok rq4)
    /\ (run_adapter w EpicFree qry s = (Ok r1, s1)
        /\ run_adapter w ItchFree qry s1 = (Ok r2, s2)
        /\ run_adapter w SteamFree qry s2 = (Ok r3, s3)
        /\ run_adapter w ArchiveSoftware qry s3 = (Ok r4, s4))
    /\ (adapter_post w EpicFree qry rq1 r1
        /\ adapter_post w ItchFree qry rq2 r2
        /\ adapter_post w SteamFree qry rq3 r3
        /\ adapter_post w ArchiveSoftware qry rq4 r4)
    /\ search_games w raw s
       = (Ok {| query := qry;
                sources := [set_preview r1; set_preview r2;
                            set_preview r3; set_preview r4] |}, s4).
Proof.
  intros Hs Hne qry.
  assert (scalar_str qry) as Hq by by apply normalize_scalar.
  destruct (adapter_spec EpicFree qry s Hq) as (rq1 & r1 & Hrq1 & Hr1 & Hp1).
  destruct (adapter_spec ItchFree qry (after_call w rq1 s) Hq)
    as (rq2 & r2 & Hrq2 & Hr2 & Hp2).
  destruct (adapter_spec SteamFree qry (after_call w rq2 (after_call w rq1 s)) Hq)
    as (rq3 & r3 & Hrq3 & Hr3 & Hp3).
  destruct (adapter_spec ArchiveSoftware qry
              (after_call w rq3 (after_call w rq2 (after_call w rq1 s))) Hq)
    as (rq4 & r4 & Hrq4 & Hr4 & Hp4).
  exists rq1, rq2, rq3, rq4, r1, r2, r3, r4. cbv zeta.
  split; [done|]. split; [done|]. split; [done|].
  cbn [run_adapter] in Hr1, Hr2, Hr3, Hr4.
  unfold search_games. cbv zeta.
  rewrite (proj2 (eqb_nil_false _) Hne). fold qry.
  unfold bind. rewrite Hr1, Hr2, Hr3, Hr4. done.
Qed.

End EndpointFacts.

Section ShapeFacts.
Context `{Runtime}.
Variable w : world.

Lemma adapter_counts_hits (a : adapter) (qry : str) (s s' : st)
    (r : SourceResult) :
  run_adapter w a qry s = (Ok r, s') ->
  total_hits r = length (hits r) /\ preview r = None.
Proof.
  destruct a; cbn [run_adapter];
    unfold search_epic_free_games, search_itch_free, search_steam_free,
      search_internet_archive, try_except, bind, lift, ret;
    intros Hr; repeat case_match; simplify_eq; done.
Qed.

Lemma search_games_inv (raw : str) (s s' : st) (resp : AggregateResponse) :
  search_games w raw s = (Ok resp, s') ->
  exists r1 r2 r3 r4 s1 s2 s3,
    run_adapter w EpicFree (normalize_query raw) s = (Ok r1, s1)
    /\ run_adapter w ItchFree (normalize_query raw) s1 = (Ok r2, s2)
    /\ run_adapter w SteamFree (normalize_query raw) s2 = (Ok r3, s3)
    /\ run_adapter w ArchiveSoftware (normalize_query raw) s3 = (Ok r4, s')
    /\ resp = {| query := normalize_query raw;
                 sources := map set_preview [r1; r2; r3; r4] |}.
Proof.
  unfold search_games. cbv zeta.
  destruct (eqb (normalize_query raw) []); [done|].
  unfold bind, ret. cbn [run_adapter].
  destruct (search_epic_free_games w _ s) as [[r1|e] s1] eqn:E1; [|done].
  destruct (search_itch_free w _ s1) as [[r2|e] s2] eqn:E2; [|done].
  destruct (search_steam_free w _ s2) as [[r3|e] s3] eqn:E3; [|done].
  destruct (search_internet_archive w _ s3) as [[r4|e] s4] eqn:E4; [|done].
  intros [= <- <-]. by exists r1, r2, r3, r4, s1, s2, s3.
Qed.

Lemma slice_to_3 {A} (l : list A) : slice_to l 3 = take 3 l.
Proof. done. Qed.

Lemma set_preview_shape (r : SourceResult) :
  total_hits r = length (hits r) ->
  preview (set_preview r)
  = Some (take (min 3 (total_hits (set_preview r))) (hits (set_preview r)))
  /\ total_hits (set_preview r) = length (hits (set_preview r)).
Proof.
  intros Ht. cbn [set_preview preview total_hits hits]. unfold limited.
  rewrite slice_to_3, Ht. split; [|done]. f_equal.
  destruct (decide (3 <= length (hits r))%nat).
  - by rewrite Nat.min_l.
  - rewrite Nat.min_r by lia. rewrite !take_ge; [done | lia | lia].
Qed.

End ShapeFacts.

(** ** Catalog elements *)

Section ElementFacts.
Context `{Runtime}.

Lemma is_free_now_first_entry (el : json) :
  is_free_now el = Ok true <-> first_entry_active el = true.
Proof.
  unfold is_free_now, first_entry_active, offer_entries, entry_active.
  destruct el as [| | | | |?|fields]; try done.
  cbn [py_get field exc_bind].
  destruct (dict_get fields (lit "promotions")) as [p|]; [|done].
  cbn [from_option id]. unfold or_else.
  destruct (truthy p) eqn:Ep.
  - rewrite Ep. destruct p as [| | | | |?|pf]; try done.
    cbn [py_get field exc_bind].
    destruct (dict_get pf (lit "promotionalOffers")) as [u|]; [|done].
    cbn [from_option id].
    destruct (truthy u) eqn:Eu.
    + rewrite Eu. destruct u as [| | | |us|entries|uf]; try done.
      * destruct us; done.
      * destruct entries as [|e entries]; [done|].
        cbn [subscript0 exc_bind].
        destruct e as [| | | | |?|ef]; try done.
        cbn [py_get field exc_bind].
        destruct (dict_get ef (lit "promotionalOffers")) as [offers|]; [|done].
        cbn [from_option id]. split; congruence.
    + destruct u as [| | | |us|entries|uf]; try done.
      destruct entries; done.
  - cbn [truthy]. destruct p as [| | | | |?|pf]; try done.
    destruct pf; done.
Qed.

Lemma truthy_JStr (s : str) : truthy (JStr s) = true <-> s <> [].
Proof. cbn [truthy]. rewrite negb_true_iff. apply eqb_nil_false. Qed.

Lemma slug_truthy (fields : list (str * json)) (key : string) (s : str) :
  truthy (default JNull (dict_get fields (lit key))) = true ->
  as_str (default JNull (dict_get fields (lit key))) = Ok s ->
  slug (JObj fields) key = Some s.
Proof.
  unfold slug. cbn [field].
  destruct (dict_get fields (lit key)) as [v|]; cbn [from_option id]; [|done].
  destruct v as [| | | |t| |]; try done.
  intros Ht%truthy_JStr [= <-]. by destruct t.
Qed.

Lemma slug_falsy (fields : list (str * json)) (key : string) :
  truthy (default JNull (dict_get fields (lit key))) = false ->
  slug (JObj fields) key = None.
Proof.
  unfold slug. cbn [field].
  destruct (dict_get fields (lit key)) as [v|]; cbn [from_option id]; [|done].
  destruct v as [| | | |t| |]; try done.
  destruct t as [|c t]; [done|]. intros Ht.
  assert (truthy (JStr (c :: t)) = true) by by apply truthy_JStr.
  congruence.
Qed.

Lemma epic_link_spec (el : json) (link : str) :
  epic_link el = Ok link ->
  link = match slug el "productSlug" with
         | Some s => product_page s
         | None =>
             match slug el "urlSlug" with
             | Some s => product_page s
             | None => epic_listing_url
             end
         end.
Proof.
  unfold epic_link.
  destruct el as [| | | | |?|fields]; try done.
  cbn [py_get exc_bind].
  destruct (truthy (default JNull (dict_get fields (lit "productSlug"))))
    eqn:Ep.
  - cbn [exc_bind]. rewrite Ep.
    destruct (as_str _) as [s|] eqn:Es; [|done].
    cbn [exc_bind]. intros [= <-].
    by rewrite (slug_truthy fields "productSlug" s Ep Es).
  - rewrite (slug_falsy fields "productSlug" Ep). cbn [exc_bind].
    destruct (truthy (default JNull (dict_get fields (lit "urlSlug"))))
      eqn:Eu.
    + destruct (as_str _) as [s|] eqn:Es; [|done].
      cbn [exc_bind]. intros [= <-].
      by rewrite (slug_truthy fields "urlSlug" s Eu Es).
    + intros [= <-]. by rewrite (slug_falsy fields "urlSlug" Eu).
Qed.

(** The decision of line 79, read off the element. *)
Lemma epic_element_hit (qry : str) (el : json) (h : Hit) :
  epic_element qry el = Ok (Some h) ->
  element_title el = Some (title h)
  /\ title h <> []
  /\ contains (lower qry) (lower (title h)) = true
  /\ first_entry_active el = true
  /\ epic_link el = Ok (url h).
Proof.
  unfold epic_element, element_title.
  destruct el as [| | | | |?|fields]; try done.
  cbn [py_get_default field exc_bind].
  destruct (dict_get fields (lit "title")) as [t|]; cbn [from_option id].
  - destruct t as [| | | |t| |]; try done. cbn [as_str exc_bind].
    destruct (is_free_now (JObj fields)) as [free|] eqn:Ef; [|done].
    cbn [exc_bind].
    destruct (negb (eqb (strip t) [])) eqn:Et; [|done].
    destruct (contains _ _) eqn:Ec; [|done].
    destruct free; [|done]. cbn [andb].
    destruct (epic_link (JObj fields)) as [link|]; [|done].
    cbn [exc_bind]. intros [= <-]. cbn [title url].
    apply negb_true_iff, eqb_nil_false in Et.
    by apply is_free_now_first_entry in Ef.
  - cbn [as_str exc_bind].
    destruct (is_free_now (JObj fields)) as [free|]; [|done].
    cbn [exc_bind]. done.
Qed.

Lemma epic_element_miss (qry : str) (el : json) (ttl : str) :
  element_title el = Some ttl ->
  ttl = [] \/ contains (lower qry) (lower ttl) = false
  \/ first_entry_active el = false ->
  forall h, epic_element qry el <> Ok (Some h).
Proof.
  intros Ht Hmiss h Hh. apply epic_element_hit in Hh as (Ht' & Hne & Hc & Hf & _).
  rewrite Ht in Ht'. injection Ht' as ->.
  destruct Hmiss as [?|[?|?]]; congruence.
Qed.

Lemma epic_element_take (qry : str) (el : json) (ttl : str) :
  element_title el = Some ttl -> ttl <> [] ->
  contains (lower qry) (lower ttl) = true ->
  first_entry_active el = true ->
  epic_element qry el
  = (link <- epic_link el ;; Ok (Some {| title := ttl; url := link |}))%exc.
Proof.
  unfold epic_element, element_title.
  destruct el as [| | | | |?|fields]; try done.
  cbn [py_get_default field exc_bind].
  intros Ht Hne Hc Hf%is_free_now_first_entry. rewrite Hf.
  destruct (dict_get fields (lit "title")) as [t|]; cbn [from_option id].
  - destruct t as [| | | |t| |]; try done. injection Ht as <-.
    cbn [as_str exc_bind]. rewrite Hc.
    by rewrite (proj2 (eqb_nil_false _) Hne).
  - by injection Ht as <-.
Qed.

End ElementFacts.

(** * The claims of the specification *)

Section Claims.
Context `{Runtime}.
Variable w : world.

(** C1. The search raises a client error exactly when the normalised
    query is empty, and it does so without touching the network state:
    no request has been sent, so no adapter has run.  Every other input
    yields a response, whatever the upstreams do. *)
Theorem search_rejects_only_the_empty_query (raw : str) (s : st) :
  scalar_str raw ->
  (client_error (fst (search_games w raw s)) <-> normalize_query raw = [])
  /\ (normalize_query raw = [] ->
      search_games w raw s
      = (Raise (HTTPException 400 (lit "Query cannot be empty")), s))
  /\ (normalize_query raw <> [] ->
      exists resp s', search_games w raw s = (Ok resp, s')).
Proof.
  intros Hs. split; [|split].
  - split.
    + intros (code & detail & Hr & _).
      destruct (decide (normalize_query raw = [])) as [|Hne]; [done|].
      destruct (search_games_run w raw s Hs Hne)
        as (? & ? & ? & ? & ? & ? & ? & ? & _ & _ & _ & Hrun).
      rewrite Hrun in Hr. done.
    + intros Hn. rewrite (search_games_empty w raw s Hn).
      exists 400, (lit "Query cannot be empty"). split; [done | lia].
  - apply search_games_empty.
  - intros Hne.
    destruct (search_games_run w raw s Hs Hne)
      as (? & ? & ? & ? & ? & ? & ? & ? & _ & _ & _ & Hrun).
    eauto.
Qed.

(** C2. The response lists the results of the four adapters, each one
    present whatever its number of hits, in the order Epic, itch.io,
    Steam, Internet Archive. *)
Theorem sources_are_the_four_adapters_in_order (raw : str) (s : st) :
  scalar_str raw -> normalize_query raw <> [] ->
  exists resp s' results,
    search_games w raw s = (Ok resp, s')
    /\ Forall2 (fun a r => exists s1 s2,
                  run_adapter w a (normalize_query raw) s1 = (Ok r, s2))
         all_adapters results
    /\ sources resp = map set_preview results
    /\ map source (sources resp)
       = [epic_source; itch_source; steam_source; archive_source]
    /\ length (sources resp) = 4%nat.
Proof.
  intros Hs Hne.
  destruct (search_games_run w raw s Hs Hne)
    as (rq1 & rq2 & rq3 & rq4 & r1 & r2 & r3 & r4 & _ & Hr & Hp & Hrun).
  cbv zeta in Hr.
  destruct Hr as (Hr1 & Hr2 & Hr3 & Hr4).
  destruct Hp as ((Hn1 & _) & (Hn2 & _) & (Hn3 & _) & (Hn4 & _)).
  eexists _, _, [r1; r2; r3; r4]. split; [exact Hrun|].
  split; [repeat constructor; eauto|].
  split; [done|]. split; [|done].
  cbn [sources map set_preview source]. by rewrite Hn1, Hn2, Hn3, Hn4.
Qed.

(** C3. No adapter lets an exception out: its search returns a result
    with a link to the source, and when the upstream has failed the
    result has no hit and a count of zero.  The request as a whole
    succeeds. *)
Theorem adapters_absorb_upstream_failures (a : adapter) (qry raw : str)
    (s s0 : st) :
  scalar_str qry -> scalar_str raw -> normalize_query raw <> [] ->
  (exists r s',
     run_adapter w a qry s = (Ok r, s')
     /\ more_url r <> []
     /\ (upstream_fails w a qry -> hits r = [] /\ total_hits r = 0%nat))
  /\ (exists resp s', search_games w raw s0 = (Ok resp, s')).
Proof.
  intros Hq Hs Hne. split.
  - destruct (adapter_spec w a qry s Hq)
      as (rq & r & Hrq & Hr & _ & Hu & Ht & _ & Hf & _).
    exists r, (after_call w rq s). split; [done|]. split; [done|].
    intros (rq' & Hrq' & Hun). rewrite Hrq in Hrq'. injection Hrq' as <-.
    specialize (Hf Hun). by rewrite Ht, Hf.
  - destruct (search_games_run w raw s0 Hs Hne)
      as (? & ? & ? & ? & ? & ? & ? & ? & _ & _ & _ & Hrun).
    eauto.
Qed.

(** C4. Setting the preview changes nothing else: the hits, their count,
    the name and the link of a result stay as they were, and the preview
    is the first three hits.  The entries of a response are the results
    of the four adapters so shaped, each with the hits and the count its
    adapter returned.  In every entry the count is the number of hits
    and the preview is the first [min 3 count] hits, hence a prefix of
    the hits of at most three entries. *)
Theorem previews_are_prefixes (raw : str) (s s' : st)
    (resp : AggregateResponse) (src : SourceResult) :
  search_games w raw s = (Ok resp, s') ->
  (hits (set_preview src) = hits src
   /\ total_hits (set_preview src) = total_hits src
   /\ source (set_preview src) = source src
   /\ more_url (set_preview src) = more_url src
   /\ preview (set_preview src) = Some (take 3 (hits src)))
  /\ (exists r1 r2 r3 r4 s1 s2 s3,
        run_adapter w EpicFree (normalize_query raw) s = (Ok r1, s1)
        /\ run_adapter w ItchFree (normalize_query raw) s1 = (Ok r2, s2)
        /\ run_adapter w SteamFree (normalize_query raw) s2 = (Ok r3, s3)
        /\ run_adapter w ArchiveSoftware (normalize_query raw) s3 = (Ok r4, s')
        /\ Forall2 (fun r sr =>
                      hits sr = hits r
                      /\ total_hits sr = total_hits r
                      /\ source sr = source r
                      /\ more_url sr = more_url r
                      /\ preview sr = Some (take 3 (hits r)))
             [r1; r2; r3; r4] (sources resp))
  /\ Forall (fun sr =>
               total_hits sr = length (hits sr)
               /\ preview sr = Some (take (min 3 (total_hits sr)) (hits sr))
               /\ (exists pv, preview sr = Some pv
                              /\ pv `prefix_of` hits sr
                              /\ (length pv <= 3)%nat))
       (sources resp).
Proof.
  intros (r1 & r2 & r3 & r4 & s1 & s2 & s3 & H1 & H2 & H3 & H4 & ->)
    %search_games_inv.
  assert (forall r, hits (set_preview r) = hits r
                    /\ total_hits (set_preview r) = total_hits r
                    /\ source (set_preview r) = source r
                    /\ more_url (set_preview r) = more_url r
                    /\ preview (set_preview r) = Some (take 3 (hits r)))
    as Hkeep.
  { intros r. cbn [set_preview hits total_hits source more_url preview].
    unfold limited. by rewrite slice_to_3. }
  split; [apply Hkeep|]. split.
  - exists r1, r2, r3, r4, s1, s2, s3. repeat (split; [done|]).
    cbn [sources map]. repeat constructor; apply Hkeep.
  - apply adapter_counts_hits in H1 as [H1 _], H2 as [H2 _],
      H3 as [H3 _], H4 as [H4 _].
    assert (forall r, total_hits r = length (hits r) ->
      total_hits (set_preview r) = length (hits (set_preview r))
      /\ preview (set_preview r)
         = Some (take (min 3 (total_hits (set_preview r)))
                   (hits (set_preview r)))
      /\ (exists pv, preview (set_preview r) = Some pv
            /\ pv `prefix_of` hits (set_preview r)
            /\ (length pv <= 3)%nat)) as Hshape.
    { intros r Hr. destruct (set_preview_shape r Hr) as [Hp Ht].
      split; [done|]. split; [done|].
      exists (take 3 (hits r)). split; [apply Hkeep|].
      split; [apply prefix_take|]. rewrite length_take. lia. }
    cbn [sources map]. repeat constructor; by apply Hshape.
Qed.

(** C9, as the code has it.  The adapters run one after the other, in
    the order Epic, itch.io, Steam, Internet Archive: each request is
    sent when the call before it has returned, and the request takes
    the sum of the four latencies. *)
Theorem adapters_run_one_after_another (raw : str) (s : st) :
  scalar_str raw -> normalize_query raw <> [] ->
  exists rq1 rq2 rq3 rq4 resp s',
    (adapter_request EpicFree (normalize_query raw) = Ok rq1
     /\ adapter_request ItchFree (normalize_query raw) = Ok rq2
     /\ adapter_request SteamFree (normalize_query raw) = Ok rq3
     /\ adapter_request ArchiveSoftware (normalize_query raw) = Ok rq4)
    /\ search_games w raw s = (Ok resp, s')
    /\ sent s'
       = sent s ++
         [(clock s, rq1);
          (clock s + elapsed w rq1, rq2);
          (clock s + elapsed w rq1 + elapsed w rq2, rq3);
          (clock s + elapsed w rq1 + elapsed w rq2 + elapsed w rq3, rq4)]
    /\ latency (search_games w raw) s = total w (normalize_query raw).
Proof.
  intros Hs Hne.
  destruct (search_games_run w raw s Hs Hne)
    as (rq1 & rq2 & rq3 & rq4 & r1 & r2 & r3 & r4 & Hrq & _ & _ & Hrun).
  cbv zeta in Hrun.
  exists rq1, rq2, rq3, rq4. eexists _, _. split; [exact Hrq|].
  split; [exact Hrun|]. split.
  - cbn [after_call sent clock]. by rewrite <- !app_assoc.
  - unfold latency, total, all_adapters. cbn [map fold_right].
    unfold adapter_latency. rewrite Hrun.
    destruct Hrq as (-> & -> & -> & ->).
    cbn [snd after_call clock]. lia.
Qed.

(** C10. The hits of an adapter are made, one by one and in their
    order, from listings of the upstream response: from all the
    listings that match when the adapter found any. *)
Theorem hits_keep_upstream_order (a : adapter) (qry : str) (s : st) :
  scalar_str qry ->
  exists r s',
    run_adapter w a qry s = (Ok r, s')
    /\ in_upstream_order qry (upstream_items w a qry) (hits r)
    /\ (hits r = []
        \/ all_matches_kept qry (upstream_items w a qry) (hits r)).
Proof.
  intros Hq.
  destruct (adapter_spec w a qry s Hq)
    as (rq & r & Hrq & Hr & _ & _ & _ & _ & _ & Hk).
  exists r, (after_call w rq s). split; [done|].
  split; [by apply matches_in_order | done].
Qed.

(** C5, as the code has it.  An element that the adapter can process
    counts as a hit exactly when its title contains the query, case
    apart, and the first entry of its promotional offers is not empty.
    A case mapping sends the empty string, and no other, to the empty
    string. *)
Theorem epic_hit_rule (qry : str) (el : json) :
  qry <> [] ->
  (forall s, lower s = [] <-> s = []) ->
  (exists r, epic_element qry el = Ok r) ->
  counts_as_hit qry el <->
  (exists ttl, element_title el = Some ttl /\ title_matches qry ttl)
  /\ first_entry_active el = true.
Proof.
  intros Hq Hlow [r Hr]. unfold counts_as_hit, title_matches. split.
  - intros [h (Ht & _ & Hc & Hf & _)%epic_element_hit].
    split; [|done]. exists (title h). split; [done|].
    by apply contains_spec.
  - intros [(ttl & Ht & Hc%contains_spec) Hf].
    assert (ttl <> []) as Hne.
    { intros ->. apply contains_nonempty in Hc.
      - apply Hc. by apply Hlow.
      - intros Hl. by apply (proj1 (Hlow _)) in Hl. }
    rewrite (epic_element_take qry el ttl Ht Hne Hc Hf) in Hr |- *.
    destruct (epic_link el) as [link|]; [|done]. by eexists.
Qed.

(** C6, as the code has it.  The link of a hit is the product page of
    the element's [productSlug] when that is a non-empty string, else
    the product page of its [urlSlug] when that is one, else the
    free-games listing. *)
Theorem epic_hit_link (qry : str) (el : json) (h : Hit) :
  epic_element qry el = Ok (Some h) ->
  url h = match slug el "productSlug" with
          | Some s => product_page s
          | None =>
              match slug el "urlSlug" with
              | Some s => product_page s
              | None => epic_listing_url
              end
          end.
Proof.
  intros (_ & _ & _ & _ & Hl)%epic_element_hit. by apply epic_link_spec.
Qed.

(** C8. Normalising a query joins its whitespace-separated words with
    single spaces: what is left of whitespace are single spaces between
    words, none leading, none trailing.  Normalising twice is
    normalising once. *)
Theorem normalize_collapses_trims_and_is_idempotent (q : str) :
  normalize_query q = join_sp (split_ws q)
  /\ single_spaced false (normalize_query q) = true
  /\ no_leading_ws (normalize_query q)
  /\ no_trailing_ws (normalize_query q)
  /\ normalize_query (normalize_query q) = normalize_query q.
Proof.
  split; [apply normalize_join_split|].
  split; [apply normalize_single_spaced|].
  split; [apply normalize_no_leading_ws|].
  split; [apply normalize_no_trailing_ws | apply normalize_idempotent].
Qed.

End Claims.

(** ** The claims on the fixtures *)

Lemma scalar_doom : scalar_str (lit "doom").
Proof. by apply scalar_str_forallb. Qed.

Lemma scalar_portal : scalar_str (lit "  portal   2 ").
Proof. by apply scalar_str_forallb. Qed.

Lemma ascii_lower_nil (s : str) : ascii_lower s = [] <-> s = [].
Proof. destruct s; done. Qed.

Lemma search_rejects_only_the_empty_query_witness :
  scalar_str (lit "  portal   2 ")
  /\ exists resp s',
       search_games (H:=ascii_runtime) offline (lit "  portal   2 ") s0
       = (Ok resp, s').
Proof.
  split; [exact scalar_portal|].
  destruct (search_rejects_only_the_empty_query (H:=ascii_runtime) offline
              (lit "  portal   2 ") s0 scalar_portal) as (_ & _ & Hok).
  apply Hok. by vm_compute.
Defined.

Lemma sources_are_the_four_adapters_in_order_witness :
  exists resp s',
    search_games (H:=ascii_runtime) offline (lit "  portal   2 ") s0
    = (Ok resp, s')
    /\ map source (sources resp)
       = [epic_source; itch_source; steam_source; archive_source]
    /\ map total_hits (sources resp) = [0; 0; 0; 0]%nat.
Proof.
  destruct (sources_are_the_four_adapters_in_order (H:=ascii_runtime) offline
              (lit "  portal   2 ") s0 scalar_portal)
    as (resp & s' & results & Hrun & _ & _ & Hsrc & _); [by vm_compute|].
  exists resp, s'. split; [exact Hrun|]. split; [exact Hsrc|].
  vm_compute in Hrun. by injection Hrun as <- _.
Defined.

Lemma adapters_absorb_upstream_failures_witness :
  exists r s',
    run_adapter (H:=ascii_runtime) offline ArchiveSoftware (lit "doom") s0
    = (Ok r, s')
    /\ more_url r <> [] /\ hits r = [] /\ total_hits r = 0%nat.
Proof.
  destruct (adapters_absorb_upstream_failures (H:=ascii_runtime) offline
              ArchiveSoftware (lit "doom") (lit "  portal   2 ") s0 s0
              scalar_doom scalar_portal)
    as ((r & s' & Hrun & Hurl & Hfail) & _); [by vm_compute|].
  exists r, s'. split; [exact Hrun|]. split; [exact Hurl|].
  apply Hfail. exists (archive_request (lit "doom")). by split.
Defined.

Lemma previews_are_prefixes_witness :
  exists resp s',
    search_games (H:=ascii_runtime)
      (stub (catalog [hollow_knight; hollow_knight_url_slug;
                      hollow_knight; hollow_knight]))
      (lit "hollow  knight") s0 = (Ok resp, s')
    /\ map total_hits (sources resp) = [4; 0; 0; 0]%nat
    /\ Forall (fun sr => total_hits sr = length (hits sr)
                         /\ preview sr
                            = Some (take (min 3 (total_hits sr)) (hits sr)))
         (sources resp).
Proof.
  eexists _, _. split; [by vm_compute|]. split; [by vm_compute|].
  eapply Forall_impl.
  - eapply (previews_are_prefixes (H:=ascii_runtime)
              (stub (catalog [hollow_knight; hollow_knight_url_slug;
                              hollow_knight; hollow_knight]))
              (lit "hollow  knight") s0 _ _
              {| source := []; more_url := []; hits := [];
                 total_hits := 0; preview := None |}).
    by vm_compute.
  - intros sr (Ht & Hp & _). by split.
Defined.

Lemma adapters_run_one_after_another_witness :
  latency (search_games (H:=ascii_runtime) offline (lit "  portal   2 ")) s0
  = 40.
Proof.
  destruct (adapters_run_one_after_another (H:=ascii_runtime) offline
              (lit "  portal   2 ") s0 scalar_portal)
    as (rq1 & rq2 & rq3 & rq4 & resp & s' & _ & _ & _ & ->); [by vm_compute|].
  by vm_compute.
Defined.

Lemma hits_keep_upstream_order_witness :
  exists r s',
    run_adapter (H:=ascii_runtime)
      (stub (catalog [hollow_knight_later; hollow_knight]))
      EpicFree (lit "hollow knight") s0 = (Ok r, s')
    /\ in_upstream_order (H:=ascii_runtime) (lit "hollow knight")
         [Element hollow_knight_later; Element hollow_knight] (hits r).
Proof.
  destruct (hits_keep_upstream_order (H:=ascii_runtime)
              (stub (catalog [hollow_knight_later; hollow_knight]))
              EpicFree (lit "hollow knight") s0)
    as (r & s' & Hrun & Horder & _).
  - by apply scalar_str_forallb.
  - exists r, s'. split; [exact Hrun | exact Horder].
Defined.

Lemma epic_hit_rule_witness :
  counts_as_hit (H:=ascii_runtime) (lit "hollow knight") hollow_knight
  /\ ~ counts_as_hit (H:=ascii_runtime) (lit "hollow knight")
         hollow_knight_later.
Proof.
  split.
  - apply (epic_hit_rule (H:=ascii_runtime)); [done | apply ascii_lower_nil | |].
    + by eexists.
    + split; [|done]. exists (lit "Hollow Knight"). split; [done|].
      by apply contains_spec.
  - intros Hhit.
    apply (epic_hit_rule (H:=ascii_runtime)) in Hhit as [_ Hf];
      [done | done | apply ascii_lower_nil | by eexists].
Defined.

Lemma epic_hit_link_witness :
  url {| title := lit "Hollow Knight";
         url := lit "https://store.epicgames.com/en-US/p/hollow-knight" |}
  = product_page (lit "hollow-knight").
Proof.
  apply (epic_hit_link (H:=ascii_runtime) (lit "hollow knight") hollow_knight).
  by vm_compute.
Defined.

(** C5 as the specification words it: an offer in a later entry does not
    make the element a hit. *)
Lemma hit_rule_as_specified_fails :
  ~ hit_rule_as_specified (H:=ascii_runtime) (lit "hollow knight")
      hollow_knight_later.
Proof.
  intros [_ Hback]. destruct Hback as [h Hh]; [|by vm_compute in Hh].
  split; [|done]. exists (lit "Hollow Knight"). split; [done|].
  by apply contains_spec.
Qed.

(** C6 as the specification words it: without a [productSlug] the link
    is still a product page, that of the [urlSlug]. *)
Lemma link_rule_as_specified_fails :
  ~ link_rule_as_specified (H:=ascii_runtime) (lit "hollow knight")
      hollow_knight_url_slug.
Proof.
  intros Hrule.
  specialize (Hrule {| title := lit "Hollow Knight";
                       url := product_page (lit "hollow-knight-offer") |}).
  by vm_compute in Hrule; specialize (Hrule eq_refl).
Qed.

(** C7. With the Archive unreachable the link is the search page for the
    query alone: the media-type filter of the other branch is missing. *)
Theorem archive_failure_link_lacks_media_filter :
  exists r s',
    search_internet_archive (H:=ascii_runtime) offline (lit "doom") s0
    = (Ok r, s')
    /\ more_url r = lit "https://archive.org/search.php?query=doom"
    /\ more_url r
       <> lit "https://archive.org/search.php?query=doom&and[]=mediatype%3A%22software%22".
Proof. eexists _, _. by vm_compute. Qed.

(** C9 as the specification words it: with four upstreams of latency 10
    the request takes 40, not 10. *)
Lemma concurrent_latency_fails :
  ~ concurrent_latency (H:=ascii_runtime) offline (lit "doom") s0.
Proof. by vm_compute. Qed.

(** ** Scenarios of the specification, section 8 *)

Example normalize_example :
  normalize_query (lit "  hollow 	  knight ") = lit "hollow knight".
Proof. by vm_compute. Qed.

Example whitespace_only_is_rejected :
  fst (search_games (H:=ascii_runtime) offline (lit "  	 ") s0)
  = Raise (HTTPException 400 (lit "Query cannot be empty")).
Proof. by vm_compute. Qed.

Example portal_matches :
  contains (ascii_lower (lit "portal")) (ascii_lower (lit "Portal 2")) = true.
Proof. by vm_compute. Qed.

Example promoted_element_is_a_hit :
  epic_element (H:=ascii_runtime) (lit "hollow knight") hollow_knight
  = Ok (Some {| title := lit "Hollow Knight";
                url := lit "https://store.epicgames.com/en-US/p/hollow-knight" |}).
Proof. by vm_compute. Qed.

Example archive_success_link :
  more_url <$> (match fst (search_internet_archive (H:=ascii_runtime)
                             (stub (JObj [])) (lit "doom 2") s0) with
                | Ok r => Some r
                | Raise _ => None
                end)
  = Some (lit "https://archive.org/search.php?query=doom%202&and[]=mediatype%3A%22software%22").
Proof. by vm_compute. Qed.

(** * Further properties of the code *)

(** ** The helpers *)

Section HelperFacts.

Lemma filter_non_space_re_sub_ws (q : str) (b : bool) :
  List.filter non_space (re_sub_ws b q) = List.filter non_space q.
Proof.
  revert b. induction q as [|c r IH]; intros b; [done|].
  cbn [re_sub_ws List.filter]. unfold non_space at 2.
  destruct (is_space c) eqn:Ec; cbn [negb].
  - destruct b; [apply IH|]. cbn [List.filter].
    unfold non_space at 1. rewrite is_space_SP. apply IH.
  - cbn [List.filter]. unfold non_space at 1. rewrite Ec. cbn [negb].
    by rewrite IH.
Qed.

Lemma filter_non_space_lstrip (s : str) :
  List.filter non_space (lstrip_by is_space s) = List.filter non_space s.
Proof.
  induction s as [|c r IH]; [done|]. cbn [lstrip_by List.filter].
  unfold non_space at 2.
  destruct (is_space c) eqn:Ec; cbn [negb]; [done|].
  cbn [List.filter]. unfold non_space at 1. by rewrite Ec.
Qed.

Lemma filter_non_space_rstrip (s : str) :
  List.filter non_space (rstrip_by is_space s) = List.filter non_space s.
Proof.
  induction s as [|c r IH]; [done|]. cbn [rstrip_by List.filter].
  rewrite <- IH. unfold non_space at 2.
  destruct (rstrip_by is_space r) as [|d r'].
  - destruct (is_space c) eqn:Ec; cbn [negb List.filter]; [done|].
    unfold non_space. by rewrite Ec.
  - cbn [List.filter]. unfold non_space at 1. done.
Qed.

Lemma normalize_keeps_non_space (q : str) :
  List.filter non_space (normalize_query q) = List.filter non_space q.
Proof.
  unfold normalize_query, strip, strip_by.
  by rewrite filter_non_space_rstrip, filter_non_space_lstrip,
    filter_non_space_re_sub_ws.
Qed.

Lemma length_re_sub_ws (q : str) (b : bool) :
  (length (re_sub_ws b q) <= length q)%nat.
Proof.
  revert b. induction q as [|c r IH]; intros b; cbn [re_sub_ws length]; [done|].
  destruct (is_space c); [destruct b|]; cbn [length];
    [specialize (IH true) | specialize (IH true) | specialize (IH false)]; lia.
Qed.

Lemma length_lstrip_by (p : char -> bool) (s : str) :
  (length (lstrip_by p s) <= length s)%nat.
Proof.
  induction s as [|c r IH]; cbn [lstrip_by length]; [done|].
  destruct (p c); cbn [length]; lia.
Qed.

Lemma length_rstrip_by (p : char -> bool) (s : str) :
  (length (rstrip_by p s) <= length s)%nat.
Proof.
  induction s as [|c r IH]; cbn [rstrip_by length]; [done|].
  destruct (rstrip_by p r); [destruct (p c)|]; cbn [length] in *; lia.
Qed.


End HelperFacts.

(** X1. [limited] returns a prefix of the items.  With a limit that is
    not negative it has [min limit (len items)] entries; a negative limit
    counts from the end and leaves [max 0 (len items + limit)] entries. *)
Theorem limited_is_a_prefix {A} (items : list A) (limit : Z) :
  limited items limit `prefix_of` items
  /\ Z.of_nat (length (limited items limit))
     = if (0 <=? limit)%Z then Z.min limit (Z.of_nat (length items))
       else Z.max 0 (Z.of_nat (length items) + limit).
Proof.
  unfold limited, slice_to.
  destruct (0 <=? limit)%Z eqn:El; (split; [apply prefix_take|]);
    rewrite length_take; lia.
Qed.

(** X2. Limiting twice with a limit that is not negative is limiting
    once, and so is setting the preview of a result twice. *)
Theorem limited_idempotent {A} (items : list A) (limit : Z)
    (r : SourceResult) :
  (0 <= limit)%Z ->
  limited (limited items limit) limit = limited items limit
  /\ set_preview (set_preview r) = set_preview r.
Proof.
  intros Hl. split; [|done].
  unfold limited, slice_to.
  destruct (0 <=? limit)%Z eqn:El; [|lia]. apply take_idemp.
Qed.


(** X4. Normalisation touches whitespace only: the other characters of
    the input are those of the output, in the same order, and the output
    is never longer than the input. *)
Theorem normalize_keeps_the_text (q : str) :
  List.filter non_space (normalize_query q) = List.filter non_space q
  /\ (length (normalize_query q) <= length q)%nat.
Proof.
  split; [apply normalize_keeps_non_space|].
  unfold normalize_query, strip, strip_by.
  pose proof (length_rstrip_by is_space
                (lstrip_by is_space (re_sub_ws false q))).
  pose proof (length_lstrip_by is_space (re_sub_ws false q)).
  pose proof (length_re_sub_ws q false). lia.
Qed.

Lemma limited_idempotent_witness :
  limited (limited [1; 2; 3; 4; 5] 3) 3 = limited [1; 2; 3; 4; 5] 3.
Proof.
  apply (limited_idempotent [1; 2; 3; 4; 5] 3
           {| source := []; more_url := []; hits := []; total_hits := 0;
              preview := None |}).
  lia.
Defined.

(** ** What an adapter's result tells about its run *)

Section AdapterInversion.
Context `{Runtime}.
Variable w : world.

Lemma epic_inv (qry : str) (s s' : st) (r : SourceResult) :
  search_epic_free_games w qry s = (Ok r, s') ->
  source r = epic_source /\ more_url r = epic_more_url
  /\ (hits r = []
      \/ exists code b data,
           serve w epic_request = Response code b
           /\ bad_status code = false
           /\ as_json b = Some data
           /\ epic_hits qry data = Ok (hits r)).
Proof.
  unfold search_epic_free_games, try_except, bind, lift, ret, requests_get,
    raise_for_status, r_json, bad_status.
  intros Hr. repeat case_match; simplify_eq; cbn [source more_url hits fst snd];
    try (split; [done|]; split; [done|]; by left).
  split; [done|]. split; [done|]. right.
  cbn [fst snd] in *. eauto 10.
Qed.

Lemma itch_inv (qry : str) (s s' : st) (r : SourceResult) :
  search_itch_free w qry s = (Ok r, s') ->
  exists quoted,
    quote qry = Ok quoted
    /\ source r = itch_source
    /\ more_url r = itch_search_prefix ++ quoted
    /\ (hits r = []
        \/ exists code b,
             serve w {| req_url := itch_search_prefix ++ quoted;
                        req_params := [] |} = Response code b
             /\ bad_status code = false
             /\ for_each (itch_cell qry) (game_cells b) [] = Ok (hits r)).
Proof.
  unfold search_itch_free, itch_search_url, try_except, bind, lift, ret,
    requests_get, raise_for_status, bad_status.
  destruct (quote qry) as [quoted|]; cbn [exc_bind]; [|done].
  intros Hr. exists quoted. split; [done|].
  repeat case_match; simplify_eq; cbn [source more_url hits fst snd];
    try (split; [done|]; split; [done|]; by left).
  split; [done|]. split; [done|]. right.
  cbn [fst snd] in *. eauto 10.
Qed.

Lemma steam_inv (qry : str) (s s' : st) (r : SourceResult) :
  search_steam_free w qry s = (Ok r, s') ->
  exists quoted,
    quote qry = Ok quoted
    /\ source r = steam_source
    /\ more_url r = steam_search_prefix ++ quoted ++ steam_search_suffix
    /\ (hits r = []
        \/ exists code b,
             serve w {| req_url := steam_search_prefix ++ quoted
                                   ++ steam_search_suffix;
                        req_params := [] |} = Response code b
             /\ bad_status code = false
             /\ for_each (steam_row qry) (result_rows b) [] = Ok (hits r)).
Proof.
  unfold search_steam_free, steam_search_url, try_except, bind, lift, ret,
    requests_get, raise_for_status, bad_status.
  destruct (quote qry) as [quoted|]; cbn [exc_bind]; [|done].
  intros Hr. exists quoted. split; [done|].
  repeat case_match; simplify_eq; cbn [source more_url hits fst snd];
    try (split; [done|]; split; [done|]; by left).
  split; [done|]. split; [done|]. right.
  cbn [fst snd] in *. eauto 10.
Qed.

Lemma archive_inv (qry : str) (s s' : st) (r : SourceResult) :
  search_internet_archive w qry s = (Ok r, s') ->
  exists quoted,
    quote qry = Ok quoted
    /\ source r = archive_source
    /\ (more_url r = archive_search_prefix ++ quoted /\ hits r = []
        \/ more_url r = archive_search_prefix ++ quoted ++ archive_media_filter
           /\ exists code b data,
                serve w (archive_request qry) = Response code b
                /\ bad_status code = false
                /\ as_json b = Some data
                /\ archive_hits qry data = Ok (hits r)).
Proof.
  unfold search_internet_archive, try_except, bind, lift, ret, requests_get,
    raise_for_status, r_json, bad_status.
  destruct (quote qry) as [quoted|]; [|intros Hr; repeat case_match; done].
  intros Hr. exists quoted. split; [done|].
  repeat case_match; simplify_eq; cbn [source more_url hits fst snd];
    try (split; [done|]; by left).
  split; [done|]. right. split; [done|].
  cbn [fst snd] in *. eauto 10.
Qed.

End AdapterInversion.

(** ** Loops over listings *)

Section LoopFacts.
Context {A : Type}.
Variable body : A -> exc (option Hit).

Lemma for_each_hits_of (items : list A) (acc out : list Hit) :
  for_each body items acc = Ok out ->
  out = acc ++ hits_of body items
  /\ Forall (fun x => ~ raises body x) items.
Proof.
  revert acc. induction items as [|x items IH]; intros acc;
    cbn [for_each hits_of flat_map].
  - intros [= <-]. by rewrite app_nil_r.
  - destruct (body x) as [[h|]|e] eqn:Ex; [| |done].
    + intros [-> Hf]%IH. split; [by rewrite <- app_assoc|].
      constructor; [|done]. intros [e He]. congruence.
    + intros [-> Hf]%IH. split; [done|].
      constructor; [|done]. intros [e He]. congruence.
Qed.

Lemma for_each_total (items : list A) (acc : list Hit) :
  Forall (fun x => ~ raises body x) items ->
  for_each body items acc = Ok (acc ++ hits_of body items).
Proof.
  intros Hf. revert acc.
  induction Hf as [|x items Hx _ IH]; intros acc;
    cbn [for_each hits_of flat_map].
  - by rewrite app_nil_r.
  - destruct (body x) as [[h|]|e] eqn:Ex.
    + rewrite IH. by rewrite <- app_assoc.
    + apply IH.
    + destruct Hx. by exists e.
Qed.

Lemma for_each_raises (items : list A) (acc : list Hit) :
  Exists (raises body) items ->
  exists e, for_each body items acc = Raise e.
Proof.
  intros Hex. destruct (for_each body items acc) as [out|e] eqn:Ef; [|eauto].
  apply for_each_hits_of in Ef as [_ Hf].
  apply Exists_exists in Hex as (x & Hx & Hr).
  rewrite Forall_forall in Hf. by destruct (Hf x Hx).
Qed.

Lemma hits_of_Forall (P : Hit -> Prop) (items : list A) :
  (forall x h, body x = Ok (Some h) -> P h) ->
  Forall P (hits_of body items).
Proof.
  intros HP. induction items as [|x items IH]; cbn [hits_of flat_map];
    [constructor|].
  apply Forall_app. split; [|done].
  destruct (body x) as [[h|]|e] eqn:Ex; repeat constructor. eauto.
Qed.

Lemma hits_of_length (items : list A) :
  (length (hits_of body items) <= length items)%nat.
Proof.
  induction items as [|x items IH]; cbn [hits_of flat_map length]; [done|].
  rewrite length_app. fold (hits_of body items).
  destruct (body x) as [[h|]|e]; cbn [length]; lia.
Qed.

End LoopFacts.

Lemma hits_of_map {A B} (f : A -> B) (body : B -> exc (option Hit))
    (items : list A) :
  hits_of body (map f items) = hits_of (fun x => body (f x)) items.
Proof.
  unfold hits_of. induction items as [|x items IH]; cbn [flat_map map];
    [done|].
  by rewrite IH.
Qed.

(** ** Listings *)

Section ItemFacts.
Context `{Runtime}.

Lemma itch_cell_total (qry : str) (c : game_cell) : ~ raises (itch_cell qry) c.
Proof.
  intros [e He]. unfold itch_cell in He. repeat case_match; done.
Qed.

Lemma steam_row_total (qry : str) (a : result_row) : ~ raises (steam_row qry) a.
Proof.
  intros [e He]. unfold steam_row in He. repeat case_match; done.
Qed.

Lemma itch_cell_answers (qry : str) (c : game_cell) (h : Hit) :
  itch_cell qry c = Ok (Some h) ->
  answers qry h
  /\ title_el c = Some (title h) /\ link_el c = Some (Some (url h)).
Proof.
  unfold itch_cell, answers.
  destruct (title_el c) as [ttl|]; [|done].
  destruct (link_el c) as [[target|]|]; try done.
  destruct (negb (eqb ttl [])) eqn:Et; [|done].
  destruct (negb (eqb target [])) eqn:Eh; [|done].
  destruct (contains _ _) eqn:Ec; [|done].
  intros [= <-]. cbn [title url].
  apply negb_true_iff, eqb_nil_false in Et, Eh. done.
Qed.

Lemma steam_row_answers (qry : str) (a : result_row) (h : Hit) :
  steam_row qry a = Ok (Some h) ->
  answers qry h
  /\ row_title_el a = Some (title h) /\ row_href a = Some (url h).
Proof.
  unfold steam_row, answers.
  destruct (row_title_el a) as [ttl|]; [|done].
  destruct (row_href a) as [href|]; try done.
  destruct (negb (eqb ttl [])) eqn:Et; [|done].
  destruct (negb (eqb href [])) eqn:Eh; [|done].
  destruct (contains _ _) eqn:Ec; [|done].
  intros [= <-]. cbn [title url].
  apply negb_true_iff, eqb_nil_false in Et, Eh. done.
Qed.

Lemma archive_doc_hit (qry : str) (d : json) (h : Hit) :
  archive_doc qry d = Ok (Some h) ->
  field d "title" = Some (JStr (title h))
  /\ title h <> []
  /\ contains (lower qry) (lower (title h)) = true
  /\ url h = archive_details_prefix
             ++ format_value (default JNull (field d "identifier")).
Proof.
  unfold archive_doc.
  destruct d as [| | | | |?|fields]; try done.
  cbn [py_get py_get_default field exc_bind].
  destruct (dict_get fields (lit "title")) as [t|]; cbn [from_option id];
    [|done].
  destruct (truthy t) eqn:Et; [|done].
  destruct t as [| | | |t| |]; try done. cbn [as_str exc_bind].
  destruct (contains _ _) eqn:Ec; [|done].
  intros [= <-]. cbn [title url].
  by apply truthy_JStr in Et.
Qed.

Lemma epic_element_answers (qry : str) (el : json) (h : Hit) :
  epic_element qry el = Ok (Some h) ->
  answers qry h
  /\ strip (title h) = title h
  /\ starts_with epic_site (url h) = true.
Proof.
  intros Hh. pose proof (epic_element_hit qry el h Hh)
    as (Ht & Hne & Hc & _ & Hl).
  apply epic_link_spec in Hl.
  assert (starts_with epic_site (url h) = true) as Hsite.
  { rewrite Hl. apply starts_with_spec. unfold product_page.
    destruct (slug el "productSlug") as [s|];
      [|destruct (slug el "urlSlug") as [s|]].
    - exists (lit "en-US/p/" ++ strip_by (N.eqb SLASH) s). done.
    - exists (lit "en-US/p/" ++ strip_by (N.eqb SLASH) s). done.
    - by exists (lit "free-games"). }
  split; [|split; [|done]].
  - split; [done|]. split; [done|].
    intros Hu. rewrite Hu in Hsite. done.
  - unfold element_title in Ht.
    destruct el as [| | | | |?|fields]; try done.
    destruct (field (JObj fields) "title") as [[| | | |t| |]|]; try done.
    + injection Ht as <-. apply strip_by_idemp.
    + by injection Ht as <-.
Qed.

Lemma item_hit_answers (qry : str) (it : item) (h : Hit) :
  item_hit qry it = Ok (Some h) -> answers qry h.
Proof.
  destruct it as [el|c|a|d]; cbn [item_hit].
  - by intros [? _]%epic_element_answers.
  - by intros [? _]%itch_cell_answers.
  - by intros [? _]%steam_row_answers.
  - intros (_ & Hne & Hc & Hu)%archive_doc_hit.
    split; [done|]. split; [done|]. rewrite Hu. by apply app_nonempty.
Qed.

End ItemFacts.

(** ** Quoted queries *)

Section QuoteFacts.

Lemma always_safe_graphic (b : N) : always_safe b = true -> is_graphic b = true.
Proof.
  unfold always_safe, is_graphic. intros E.
  apply andb_true_iff. rewrite N.leb_le, N.leb_le.
  repeat (apply orb_true_iff in E as [E|E]);
    try (apply andb_true_iff in E as [E1 E2];
         apply N.leb_le in E1, E2; lia);
    apply N.eqb_eq in E; lia.
Qed.

Lemma hex_digit_graphic (d : N) : d < 16 -> is_graphic (hex_digit d) = true.
Proof.
  intros Hd. unfold hex_digit, is_graphic.
  apply andb_true_iff. rewrite N.leb_le, N.leb_le.
  destruct (d <? 10) eqn:E; [apply N.ltb_lt in E|]; lia.
Qed.

Lemma quote_byte_graphic (b : N) :
  b < 256 -> forallb is_graphic (quote_byte b) = true.
Proof.
  intros Hb. unfold quote_byte.
  destruct (always_safe b) eqn:E; cbn [forallb].
  - by rewrite (always_safe_graphic b E).
  - rewrite !hex_digit_graphic; [done| |].
    + pose proof (N.land_le_r b 0xF). lia.
    + apply shiftr_bound. simpl. lia.
Qed.

Lemma quote_graphic (s quoted : str) :
  quote s = Ok quoted -> forallb is_graphic quoted = true.
Proof.
  revert quoted. induction s as [|c r IH]; intros quoted; cbn [quote].
  - by intros [= <-].
  - destruct (utf8 c) as [bytes|] eqn:Eb; [|done]. cbn [exc_bind].
    destruct (quote r) as [rest|]; [|done]. cbn [exc_bind].
    intros [= <-]. rewrite forallb_app, (IH rest eq_refl), andb_true_r.
    apply utf8_bytes in Eb. clear -Eb.
    induction Eb as [|b bs Hb _ IHb]; cbn [flat_map forallb]; [done|].
    by rewrite forallb_app, IHb, quote_byte_graphic.
Qed.

Lemma quote_safe (s : str) :
  Forall (fun c => always_safe c = true) s -> quote s = Ok s.
Proof.
  induction 1 as [|c r Hc _ IH]; cbn [quote]; [done|].
  assert ((c <? 0x80) = true) as Hlt.
  { apply always_safe_graphic in Hc. unfold is_graphic in Hc.
    apply andb_true_iff in Hc as [_ Hc%N.leb_le]. apply N.ltb_lt. lia. }
  unfold utf8. rewrite Hlt. cbn [exc_bind]. rewrite IH. cbn [exc_bind].
  cbn [flat_map]. unfold quote_byte. by rewrite Hc.
Qed.

End QuoteFacts.

(** ** Adapters, whatever the upstream *)

Section AdapterExtras.
Context `{Runtime}.

(** X5. Every hit an adapter returns answers the query: it has a title
    that contains the query, case apart, and a link; the count is the
    number of hits. *)
Theorem hits_answer_the_query (w : world) (a : adapter) (qry : str)
    (s s' : st) (r : SourceResult) :
  run_adapter w a qry s = (Ok r, s') ->
  Forall (answers qry) (hits r) /\ total_hits r = length (hits r).
Proof.
  intros Hr. split; [|by apply adapter_counts_hits in Hr as [? _]].
  destruct a; cbn [run_adapter] in Hr.
  - apply epic_inv in Hr as (_ & _ & [-> | (code & b & data & _ & _ & _ & Hf)]);
      [constructor|].
    unfold epic_hits in Hf.
    destruct (epic_elements data) as [els|]; [|done]. cbn [exc_bind] in Hf.
    apply for_each_hits_of in Hf as [-> _]. cbn [app].
    apply hits_of_Forall. intros el h. by intros [? _]%epic_element_answers.
  - apply itch_inv in Hr
      as (quoted & _ & _ & _ & [-> | (code & b & _ & _ & Hf)]); [constructor|].
    apply for_each_hits_of in Hf as [-> _]. cbn [app].
    apply hits_of_Forall. intros c h. by intros [? _]%itch_cell_answers.
  - apply steam_inv in Hr
      as (quoted & _ & _ & _ & [-> | (code & b & _ & _ & Hf)]); [constructor|].
    apply for_each_hits_of in Hf as [-> _]. cbn [app].
    apply hits_of_Forall. intros c h. by intros [? _]%steam_row_answers.
  - apply archive_inv in Hr
      as (quoted & _ & _ & [[_ ->] | (_ & code & b & data & _ & _ & _ & Hf)]);
      [constructor|].
    unfold archive_hits in Hf.
    destruct (archive_docs data) as [ds|]; [|done]. cbn [exc_bind] in Hf.
    apply for_each_hits_of in Hf as [-> _]. cbn [app].
    apply hits_of_Forall. intros d h. apply (item_hit_answers qry (Doc d)).
Qed.

(** X6. The titles of the Epic hits carry no whitespace at either end,
    and their links are pages of the Epic store. *)
Theorem epic_hits_are_trimmed_store_links (w : world) (qry : str)
    (s s' : st) (r : SourceResult) :
  search_epic_free_games w qry s = (Ok r, s') ->
  Forall (fun h => strip (title h) = title h
                   /\ starts_with epic_site (url h) = true) (hits r).
Proof.
  intros (_ & _ & [-> | (code & b & data & _ & _ & _ & Hf)])%epic_inv;
    [constructor|].
  unfold epic_hits in Hf.
  destruct (epic_elements data) as [els|]; [|done]. cbn [exc_bind] in Hf.
  apply for_each_hits_of in Hf as [-> _]. cbn [app].
  apply hits_of_Forall. intros el h. by intros [_ ?]%epic_element_answers.
Qed.

(** X7. An adapter sends one request per call, whatever the upstream
    answers: Epic the same request for every query, itch.io and Steam a
    search URL holding the quoted query, the Archive its search API with
    the query among the parameters.  The call lasts as long as that
    request. *)
Theorem adapter_sends_one_request (w : world) (a : adapter) (qry : str)
    (s : st) :
  scalar_str qry ->
  exists quoted r s',
    quote qry = Ok quoted
    /\ run_adapter w a qry s = (Ok r, s')
    /\ let rq :=
         match a with
         | EpicFree => epic_request
         | ItchFree =>
             {| req_url := itch_search_prefix ++ quoted; req_params := [] |}
         | SteamFree =>
             {| req_url := steam_search_prefix ++ quoted ++ steam_search_suffix;
                req_params := [] |}
         | ArchiveSoftware => archive_request qry
         end in
       sent s' = sent s ++ [(clock s, rq)]
       /\ clock s' = clock s + elapsed w rq.
Proof.
  intros Hq. destruct (quote_scalar qry Hq) as (quoted & Hquoted & _).
  destruct (adapter_spec w a qry s Hq) as (rq & r & Hrq & Hr & _).
  exists quoted, r, (after_call w rq s). split; [done|]. split; [done|].
  destruct a; cbn [adapter_request] in Hrq.
  - by assert (epic_request = rq) as <- by congruence.
  - unfold itch_search_url in Hrq. rewrite Hquoted in Hrq.
    cbn [exc_bind] in Hrq.
    by assert ({| req_url := itch_search_prefix ++ quoted; req_params := [] |}
               = rq) as <- by congruence.
  - unfold steam_search_url in Hrq. rewrite Hquoted in Hrq.
    cbn [exc_bind] in Hrq.
    by assert ({| req_url := steam_search_prefix ++ quoted
                             ++ steam_search_suffix;
                  req_params := [] |} = rq) as <- by congruence.
  - by assert (archive_request qry = rq) as <- by congruence.
Qed.

(** X8. The "more" link of Epic, itch.io and Steam is the same whether
    the upstream answers or fails, and so is the name of every source. *)
Theorem more_url_ignores_the_upstream (w1 w2 : world) (a : adapter)
    (qry : str) (s1 s1' s2 s2' : st) (r1 r2 : SourceResult) :
  run_adapter w1 a qry s1 = (Ok r1, s1') ->
  run_adapter w2 a qry s2 = (Ok r2, s2') ->
  source r1 = source_name a /\ source r2 = source_name a
  /\ (a <> ArchiveSoftware -> more_url r1 = more_url r2).
Proof.
  intros H1 H2. destruct a; cbn [run_adapter] in H1, H2.
  - apply epic_inv in H1 as (-> & -> & _), H2 as (-> & -> & _). done.
  - apply itch_inv in H1 as (q1 & Hq1 & -> & -> & _).
    apply itch_inv in H2 as (q2 & Hq2 & -> & -> & _).
    rewrite Hq1 in Hq2. by injection Hq2 as <-.
  - apply steam_inv in H1 as (q1 & Hq1 & -> & -> & _).
    apply steam_inv in H2 as (q2 & Hq2 & -> & -> & _).
    rewrite Hq1 in Hq2. by injection Hq2 as <-.
  - apply archive_inv in H1 as (q1 & _ & -> & _).
    apply archive_inv in H2 as (q2 & _ & -> & _). done.
Qed.

End AdapterExtras.

Section UpstreamExtras.
Context `{Runtime}.
Variable w : world.

Lemma unavailable_false (needs_json : bool) (code : N) (b : body) :
  unavailable needs_json (Response code b) = false ->
  bad_status code = false
  /\ (needs_json = true -> exists data, as_json b = Some data).
Proof.
  cbn [unavailable]. intros [Hc Hj]%orb_false_iff. split; [done|].
  intros ->. destruct (as_json b); [eauto | done].
Qed.

Lemma adapter_hits_cases (a : adapter) (qry : str) (s s' : st)
    (r : SourceResult) (rq : request) :
  adapter_request a qry = Ok rq ->
  run_adapter w a qry s = (Ok r, s') ->
  hits r = []
  \/ unavailable (reads_json a) (serve w rq) = false
     /\ for_each (item_hit qry) (upstream_items w a qry) [] = Ok (hits r).
Proof.
  intros Hrq Hr. unfold upstream_items. rewrite Hrq.
  destruct a; cbn [run_adapter adapter_request reads_json body_items] in *.
  - assert (epic_request = rq) as <- by congruence.
    apply epic_inv in Hr
      as (_ & _ & [? | (code & b & data & Hs & Hc & Hj & Hf)]); [by left|].
    right. rewrite Hs. cbn [unavailable]. rewrite Hc, Hj. split; [done|].
    unfold epic_hits in Hf.
    destruct (epic_elements data) as [els|]; [|done]. cbn [exc_bind] in Hf.
    apply for_each_hits_of in Hf as [Hh Hf]. rewrite Hh. cbn [app].
    rewrite for_each_total.
    + by rewrite hits_of_map.
    + by apply Forall_map.
  - apply itch_inv in Hr
      as (quoted & Hq & _ & _ & [? | (code & b & Hs & Hc & Hf)]); [by left|].
    unfold itch_search_url in Hrq. rewrite Hq in Hrq. cbn [exc_bind] in Hrq.
    assert ({| req_url := itch_search_prefix ++ quoted; req_params := [] |}
            = rq) as <- by congruence.
    right. rewrite Hs. cbn [unavailable]. rewrite Hc. split; [done|].
    apply for_each_hits_of in Hf as [Hh Hf]. rewrite Hh. cbn [app].
    rewrite for_each_total.
    + by rewrite hits_of_map.
    + by apply Forall_map.
  - apply steam_inv in Hr
      as (quoted & Hq & _ & _ & [? | (code & b & Hs & Hc & Hf)]); [by left|].
    unfold steam_search_url in Hrq. rewrite Hq in Hrq. cbn [exc_bind] in Hrq.
    assert ({| req_url := steam_search_prefix ++ quoted ++ steam_search_suffix;
               req_params := [] |} = rq) as <- by congruence.
    right. rewrite Hs. cbn [unavailable]. rewrite Hc. split; [done|].
    apply for_each_hits_of in Hf as [Hh Hf]. rewrite Hh. cbn [app].
    rewrite for_each_total.
    + by rewrite hits_of_map.
    + by apply Forall_map.
  - assert (archive_request qry = rq) as <- by congruence.
    apply archive_inv in Hr
      as (quoted & _ & _ & [[_ ?] | (_ & code & b & data & Hs & Hc & Hj & Hf)]);
      [by left|].
    right. rewrite Hs. cbn [unavailable]. rewrite Hc, Hj. split; [done|].
    unfold archive_hits in Hf.
    destruct (archive_docs data) as [ds|]; [|done]. cbn [exc_bind] in Hf.
    apply for_each_hits_of in Hf as [Hh Hf]. rewrite Hh. cbn [app].
    rewrite for_each_total.
    + by rewrite hits_of_map.
    + by apply Forall_map.
Qed.

Lemma good_status (code : N) (b : body) :
  bad_status code = false -> raise_for_status (code, b) = Ok tt.
Proof. unfold raise_for_status, bad_status. cbn [fst]. by intros ->. Qed.

Lemma epic_available (qry : str) (s : st) (code : N) (b : body) (data : json) :
  serve w epic_request = Response code b ->
  bad_status code = false -> as_json b = Some data ->
  exists r,
    search_epic_free_games w qry s = (Ok r, after_call w epic_request s)
    /\ hits r = match epic_hits qry data with Ok found => found | Raise _ => [] end.
Proof.
  intros Hs Hc Hj.
  unfold search_epic_free_games, try_except, bind, lift, ret.
  rewrite requests_get_run by reflexivity. rewrite Hs, (good_status _ _ Hc).
  unfold r_json. cbn [snd]. rewrite Hj.
  destruct (epic_hits qry data); by eexists.
Qed.

Lemma itch_available (qry quoted : str) (s : st) (code : N) (b : body) :
  quote qry = Ok quoted -> scalar_str quoted ->
  let rq := {| req_url := itch_search_prefix ++ quoted; req_params := [] |} in
  serve w rq = Response code b -> bad_status code = false ->
  exists r,
    search_itch_free w qry s = (Ok r, after_call w rq s)
    /\ hits r = hits_of (itch_cell qry) (game_cells b).
Proof.
  intros Hq Hqs rq Hs Hc.
  unfold search_itch_free, itch_search_url, try_except, bind, lift, ret.
  rewrite Hq. cbn [exc_bind]. fold rq.
  rewrite requests_get_run.
  2:{ apply (url_encodable (itch_search_prefix ++ quoted)), scalar_str_app;
        [by apply scalar_str_forallb | done]. }
  rewrite Hs, (good_status _ _ Hc). cbn [snd].
  rewrite for_each_total by (apply Forall_forall; intros; apply itch_cell_total).
  by eexists.
Qed.

Lemma steam_available (qry quoted : str) (s : st) (code : N) (b : body) :
  quote qry = Ok quoted -> scalar_str quoted ->
  let rq := {| req_url := steam_search_prefix ++ quoted ++ steam_search_suffix;
               req_params := [] |} in
  serve w rq = Response code b -> bad_status code = false ->
  exists r,
    search_steam_free w qry s = (Ok r, after_call w rq s)
    /\ hits r = hits_of (steam_row qry) (result_rows b).
Proof.
  intros Hq Hqs rq Hs Hc.
  unfold search_steam_free, steam_search_url, try_except, bind, lift, ret.
  rewrite Hq. cbn [exc_bind]. fold rq.
  rewrite requests_get_run.
  2:{ apply (url_encodable
                 (steam_search_prefix ++ quoted ++ steam_search_suffix)),
        scalar_str_app; [by apply scalar_str_forallb|].
      apply scalar_str_app; [done | by apply scalar_str_forallb]. }
  rewrite Hs, (good_status _ _ Hc). cbn [snd].
  rewrite for_each_total by (apply Forall_forall; intros; apply steam_row_total).
  by eexists.
Qed.

Lemma archive_available (qry quoted : str) (s : st) (code : N) (b : body)
    (data : json) :
  scalar_str qry -> quote qry = Ok quoted ->
  serve w (archive_request qry) = Response code b ->
  bad_status code = false -> as_json b = Some data ->
  exists r,
    search_internet_archive w qry s
    = (Ok r, after_call w (archive_request qry) s)
    /\ hits r = match archive_hits qry data with
                | Ok found => found
                | Raise _ => []
                end.
Proof.
  intros Hqs Hq Hs Hc Hj.
  unfold search_internet_archive, try_except, bind, lift, ret.
  rewrite requests_get_run by by apply archive_encodable.
  rewrite Hs, (good_status _ _ Hc), Hq. unfold r_json. cbn [snd]. rewrite Hj.
  destruct (archive_hits qry data); by eexists.
Qed.

Lemma json_hits_total (qry : str) (inj : json -> item)
    (body : json -> exc (option Hit)) (elements : exc (list json)) :
  (forall x, item_hit qry (inj x) = body x) ->
  Forall (fun it => ~ raises (item_hit qry) it)
    (match elements with Ok els => map inj els | Raise _ => [] end) ->
  match (items <- elements ;; for_each body items [])%exc with
  | Ok found => found
  | Raise _ => []
  end
  = hits_of (item_hit qry)
      (match elements with Ok els => map inj els | Raise _ => [] end).
Proof.
  intros Hb Hf. destruct elements as [els|]; cbn [exc_bind]; [|done].
  rewrite hits_of_map.
  rewrite for_each_total.
  - cbn [app]. unfold hits_of. apply flat_map_ext. intros x. by rewrite Hb.
  - apply Forall_forall. intros x Hx [e He].
    rewrite Forall_forall in Hf. apply (Hf (inj x)).
    + by apply list_elem_of_fmap_2.
    + exists e. by rewrite Hb.
Qed.

End UpstreamExtras.

Section ListingExtras.
Context `{Runtime}.
Variable w : world.

(** X9. When the upstream answers (no failure, no error status, a body
    that decodes where JSON is read), and no listing of a JSON answer
    makes the adapter raise, the hits are those of all the listings that
    match, in order.  Listings of itch.io and Steam never make the
    adapter raise: a card without title, link or target is skipped. *)
Theorem available_upstream_gives_all_matches (a : adapter) (qry : str)
    (s : st) (rq : request) :
  scalar_str qry ->
  adapter_request a qry = Ok rq ->
  unavailable (reads_json a) (serve w rq) = false ->
  (reads_json a = true ->
   Forall (fun it => ~ raises (item_hit qry) it) (upstream_items w a qry)) ->
  exists r s',
    run_adapter w a qry s = (Ok r, s')
    /\ hits r = hits_of (item_hit qry) (upstream_items w a qry).
Proof.
  intros Hq Hrq Hav Hitems.
  destruct (quote_scalar qry Hq) as (quoted & Hquoted & Hqs).
  destruct (serve w rq) as [| |code b] eqn:Hs; [done|done|].
  apply unavailable_false in Hav as [Hc Hj].
  unfold upstream_items in *. rewrite Hrq, Hs in *.
  destruct a; cbn [run_adapter adapter_request reads_json body_items] in *.
  - assert (epic_request = rq) as <- by congruence.
    destruct (Hj eq_refl) as [data Hd]. rewrite Hd in *.
    destruct (epic_available w qry s code b data Hs Hc Hd) as (r & Hr & Hh).
    exists r, (after_call w epic_request s). split; [done|]. rewrite Hh.
    apply (json_hits_total qry Element (epic_element qry)); [done|].
    by apply Hitems.
  - unfold itch_search_url in Hrq. rewrite Hquoted in Hrq.
    cbn [exc_bind] in Hrq.
    assert ({| req_url := itch_search_prefix ++ quoted; req_params := [] |}
            = rq) as <- by congruence.
    destruct (itch_available w qry quoted s code b Hquoted Hqs Hs Hc)
      as (r & Hr & Hh).
    eexists r, _. split; [done|]. by rewrite Hh, hits_of_map.
  - unfold steam_search_url in Hrq. rewrite Hquoted in Hrq.
    cbn [exc_bind] in Hrq.
    assert ({| req_url := steam_search_prefix ++ quoted ++ steam_search_suffix;
               req_params := [] |} = rq) as <- by congruence.
    destruct (steam_available w qry quoted s code b Hquoted Hqs Hs Hc)
      as (r & Hr & Hh).
    eexists r, _. split; [done|]. by rewrite Hh, hits_of_map.
  - assert (archive_request qry = rq) as <- by congruence.
    destruct (Hj eq_refl) as [data Hd]. rewrite Hd in *.
    destruct (archive_available w qry quoted s code b data Hq Hquoted Hs Hc Hd)
      as (r & Hr & Hh).
    eexists r, _. split; [done|]. rewrite Hh.
    apply (json_hits_total qry Doc (archive_doc qry)); [done|].
    by apply Hitems.
Qed.

(** X10. One listing that makes the adapter raise (an element that is
    not an object, a title that is not a string, a slug that is a
    number) voids the whole source: the result has no hit, whatever the
    other listings are. *)
Theorem one_bad_listing_voids_the_source (a : adapter) (qry : str) (s : st) :
  scalar_str qry ->
  Exists (raises (item_hit qry)) (upstream_items w a qry) ->
  exists r s',
    run_adapter w a qry s = (Ok r, s')
    /\ hits r = [] /\ total_hits r = 0%nat.
Proof.
  intros Hq Hbad.
  destruct (adapter_spec w a qry s Hq) as (rq & r & Hrq & Hr & _ & _ & Ht & _).
  exists r, (after_call w rq s). split; [done|].
  destruct (adapter_hits_cases w a qry s _ r rq Hrq Hr) as [Hh | [_ Hf]].
  - by rewrite Ht, Hh.
  - destruct (for_each_raises (item_hit qry) _ [] Hbad) as [e He]. congruence.
Qed.

(** X11. An adapter returns at most one hit per listing of the upstream
    answer. *)
Theorem hits_are_bounded_by_the_listings (a : adapter) (qry : str) (s : st) :
  scalar_str qry ->
  exists r s',
    run_adapter w a qry s = (Ok r, s')
    /\ (total_hits r <= length (upstream_items w a qry))%nat.
Proof.
  intros Hq.
  destruct (adapter_spec w a qry s Hq) as (rq & r & Hrq & Hr & _ & _ & Ht & _).
  exists r, (after_call w rq s). split; [done|]. rewrite Ht.
  destruct (adapter_hits_cases w a qry s _ r rq Hrq Hr) as [-> | [_ Hf]].
  - cbn [length]. lia.
  - apply for_each_hits_of in Hf as [-> _]. cbn [app]. apply hits_of_length.
Qed.

(** X12. The "more" link of every result is made of printable ASCII
    characters, none of them a space, whatever the query holds. *)
Theorem more_url_is_printable (a : adapter) (qry : str) (s s' : st)
    (r : SourceResult) :
  run_adapter w a qry s = (Ok r, s') ->
  forallb is_graphic (more_url r) = true.
Proof.
  destruct a; cbn [run_adapter].
  - by intros (_ & -> & _)%epic_inv.
  - intros (quoted & Hq%quote_graphic & _ & -> & _)%itch_inv.
    by rewrite forallb_app, Hq.
  - intros (quoted & Hq%quote_graphic & _ & -> & _)%steam_inv.
    by rewrite !forallb_app, Hq.
  - intros (quoted & Hq%quote_graphic & _ & [[-> _] | [-> _]])%archive_inv.
    + by rewrite forallb_app, Hq.
    + by rewrite !forallb_app, Hq.
Qed.

(** X16. A query made of letters, digits and [_.-~/] appears as it is
    in the "more" links that are built from the query. *)
Theorem plain_query_is_embedded_verbatim (a : adapter) (qry : str)
    (s s' : st) (r : SourceResult) :
  Forall (fun c => always_safe c = true) qry ->
  run_adapter w a qry s = (Ok r, s') ->
  match a with
  | EpicFree => more_url r = epic_more_url
  | ItchFree => more_url r = itch_search_prefix ++ qry
  | SteamFree => more_url r = steam_search_prefix ++ qry ++ steam_search_suffix
  | ArchiveSoftware =>
      more_url r = archive_search_prefix ++ qry
      \/ more_url r = archive_search_prefix ++ qry ++ archive_media_filter
  end.
Proof.
  intros Hq%quote_safe. destruct a; cbn [run_adapter].
  - by intros (_ & -> & _)%epic_inv.
  - intros (quoted & Hq' & _ & -> & _)%itch_inv. congruence.
  - intros (quoted & Hq' & _ & -> & _)%steam_inv. congruence.
  - intros (quoted & Hq' & _ & [[-> _] | [-> _]])%archive_inv;
      [left | right]; congruence.
Qed.

End ListingExtras.

Section QueryExtras.
Context `{Runtime}.

Lemma for_each_ext {A} (f g : A -> exc (option Hit)) (items : list A)
    (acc : list Hit) :
  (forall x, f x = g x) -> for_each f items acc = for_each g items acc.
Proof.
  intros Hfg. revert acc.
  induction items as [|x items IH]; intros acc; cbn [for_each]; [done|].
  rewrite Hfg. destruct (g x) as [[h|]|e]; [apply IH | apply IH | done].
Qed.

Lemma item_hit_lower (q1 q2 : str) (it : item) :
  lower q1 = lower q2 -> item_hit q1 it = item_hit q2 it.
Proof.
  intros Hl.
  destruct it; cbn [item_hit];
    unfold epic_element, itch_cell, steam_row, archive_doc; by rewrite Hl.
Qed.

Lemma search_games_normalized (w : world) (raw : str) (s : st) :
  search_games w (normalize_query raw) s = search_games w raw s.
Proof. unfold search_games. by rewrite normalize_idempotent. Qed.

(** X13. The query is read through its lower-case form only: two
    queries that differ by case give the same verdict on every listing,
    and the same Epic result. *)
Theorem query_case_is_ignored (w : world) (q1 q2 : str) (s : st) (it : item) :
  lower q1 = lower q2 ->
  item_hit q1 it = item_hit q2 it
  /\ search_epic_free_games w q1 s = search_epic_free_games w q2 s.
Proof.
  intros Hl. split; [by apply item_hit_lower|].
  assert (forall data, epic_hits q1 data = epic_hits q2 data) as Hh.
  { intros data. unfold epic_hits.
    destruct (epic_elements data) as [els|]; cbn [exc_bind]; [|done].
    apply for_each_ext. intros el. apply (item_hit_lower q1 q2 (Element el) Hl). }
  unfold search_epic_free_games, try_except, bind, lift, ret.
  destruct (requests_get w epic_request s) as [[r|e] s1]; [|done].
  destruct (raise_for_status r); [|done].
  destruct (r_json r) as [data|]; [|done].
  by rewrite Hh.
Qed.

(** X14. An Archive document becomes a hit exactly when its title is a
    non-empty string that contains the query, case apart.  The hit
    carries the title as it is and a details link made of the
    identifier: its text when it is a string, else the text Python
    prints for the value, [None] when the field is missing. *)
Theorem archive_hit_rule (qry : str) (d : json) (h : Hit) :
  archive_doc qry d = Ok (Some h) <->
  field d "title" = Some (JStr (title h))
  /\ title h <> []
  /\ contains (lower qry) (lower (title h)) = true
  /\ url h = archive_details_prefix
             ++ format_value (default JNull (field d "identifier")).
Proof.
  split; [apply archive_doc_hit|].
  intros (Ht & Hne & Hc & Hu). unfold archive_doc.
  destruct d as [| | | | |?|fields]; try done.
  cbn [py_get py_get_default field exc_bind] in *. rewrite Ht.
  cbn [from_option id].
  rewrite (proj2 (truthy_JStr _) Hne). cbn [as_str exc_bind]. rewrite Hc.
  destruct h as [t u]. cbn [title url] in *. by rewrite Hu.
Qed.

(** X15. The query echoed in a response is the normalised input, and
    searching for it again, the upstreams being the same, gives the
    same response. *)
Theorem echoed_query_reproduces_the_response (w : world) (raw : str)
    (s s' : st) (resp : AggregateResponse) :
  search_games w raw s = (Ok resp, s') ->
  query resp = normalize_query raw
  /\ search_games w (query resp) s = (Ok resp, s').
Proof.
  intros Hr.
  assert (query resp = normalize_query raw) as Hq.
  { by apply search_games_inv in Hr as (? & ? & ? & ? & ? & ? & ? & _ & _ & _ & _ & ->). }
  split; [done|]. by rewrite Hq, search_games_normalized.
Qed.

End QueryExtras.

(** ** The further properties on the fixtures *)

Lemma hits_answer_the_query_witness :
  exists r s',
    run_adapter (H:=ascii_runtime) (page itch_listing) ItchFree (lit "doom") s0
    = (Ok r, s')
    /\ Forall (answers (H:=ascii_runtime) (lit "doom")) (hits r).
Proof.
  eexists _, _. split; [by vm_compute|].
  eapply (hits_answer_the_query (H:=ascii_runtime) (page itch_listing)
            ItchFree (lit "doom") s0).
  by vm_compute.
Defined.

Lemma epic_hits_are_trimmed_store_links_witness :
  exists r s',
    search_epic_free_games (H:=ascii_runtime)
      (stub (catalog [hollow_knight; hollow_knight_url_slug]))
      (lit "hollow") s0 = (Ok r, s')
    /\ length (hits r) = 2%nat
    /\ Forall (fun h => strip (title h) = title h
                        /\ starts_with epic_site (url h) = true) (hits r).
Proof.
  eexists _, _. split; [by vm_compute|]. split; [by vm_compute|].
  eapply (epic_hits_are_trimmed_store_links (H:=ascii_runtime)
            (stub (catalog [hollow_knight; hollow_knight_url_slug]))
            (lit "hollow") s0).
  by vm_compute.
Defined.

Lemma adapter_sends_one_request_witness :
  exists r s',
    run_adapter (H:=ascii_runtime) offline SteamFree (lit "doom") s0
    = (Ok r, s')
    /\ sent s'
       = [(0, {| req_url :=
                   lit "https://store.steampowered.com/search/?term=doom&price=free";
                 req_params := [] |})].
Proof.
  destruct (adapter_sends_one_request (H:=ascii_runtime) offline SteamFree
              (lit "doom") s0 scalar_doom)
    as (quoted & r & s' & Hq & Hr & Hs & _).
  exists r, s'. split; [exact Hr|].
  vm_compute in Hq. injection Hq as <-. exact Hs.
Defined.

Lemma more_url_ignores_the_upstream_witness :
  exists r1 s1 r2 s2,
    run_adapter (H:=ascii_runtime) offline ItchFree (lit "doom") s0
    = (Ok r1, s1)
    /\ run_adapter (H:=ascii_runtime) (page itch_listing) ItchFree
         (lit "doom") s0 = (Ok r2, s2)
    /\ hits r1 <> hits r2 /\ more_url r1 = more_url r2.
Proof.
  eexists _, _, _, _. split; [by vm_compute|]. split; [by vm_compute|].
  split; [by vm_compute|].
  eapply (more_url_ignores_the_upstream (H:=ascii_runtime) offline
            (page itch_listing) ItchFree (lit "doom") s0 _ s0 _);
    [by vm_compute | by vm_compute | done].
Defined.

Lemma available_upstream_gives_all_matches_witness :
  exists r s',
    run_adapter (H:=ascii_runtime) (page itch_listing) ItchFree (lit "doom") s0
    = (Ok r, s')
    /\ map title (hits r) = [lit "Doom Clone"; lit "DOOM 64k"].
Proof.
  destruct (available_upstream_gives_all_matches (H:=ascii_runtime)
              (page itch_listing) ItchFree (lit "doom") s0
              {| req_url := lit "https://itch.io/games/free?q=doom";
                 req_params := [] |} scalar_doom)
    as (r & s' & Hr & Hh); [by vm_compute | by vm_compute | done |].
  exists r, s'. split; [exact Hr|]. rewrite Hh. by vm_compute.
Defined.

Lemma one_bad_listing_voids_the_source_witness :
  exists r s',
    run_adapter (H:=ascii_runtime)
      (stub (archive_answer [doom_doc; listed_title_doc]))
      ArchiveSoftware (lit "doom") s0 = (Ok r, s')
    /\ hits r = [] /\ total_hits r = 0%nat.
Proof.
  apply (one_bad_listing_voids_the_source (H:=ascii_runtime)
           (stub (archive_answer [doom_doc; listed_title_doc]))
           ArchiveSoftware (lit "doom") s0 scalar_doom).
  apply Exists_exists. exists (Doc listed_title_doc). split.
  - apply list_elem_of_In. vm_compute. right. by left.
  - exists AttributeError. by vm_compute.
Defined.

Lemma hits_are_bounded_by_the_listings_witness :
  exists r s',
    run_adapter (H:=ascii_runtime) (page itch_listing) ItchFree (lit "doom") s0
    = (Ok r, s')
    /\ (total_hits r <= 6)%nat.
Proof.
  apply (hits_are_bounded_by_the_listings (H:=ascii_runtime)
           (page itch_listing) ItchFree (lit "doom") s0 scalar_doom).
Defined.

Lemma more_url_is_printable_witness :
  exists r s',
    run_adapter (H:=ascii_runtime) offline ArchiveSoftware
      (lit "doom 2: hell on earth") s0 = (Ok r, s')
    /\ forallb is_graphic (more_url r) = true.
Proof.
  eexists _, _. split; [by vm_compute|].
  eapply (more_url_is_printable (H:=ascii_runtime) offline ArchiveSoftware
            (lit "doom 2: hell on earth") s0).
  by vm_compute.
Defined.

Lemma plain_query_is_embedded_verbatim_witness :
  exists r s',
    run_adapter (H:=ascii_runtime) offline ItchFree (lit "half-life") s0
    = (Ok r, s')
    /\ more_url r = itch_search_prefix ++ lit "half-life".
Proof.
  eexists _, _. split; [by vm_compute|].
  eapply (plain_query_is_embedded_verbatim (H:=ascii_runtime) offline ItchFree
            (lit "half-life") s0).
  - apply Forall_forall. intros c Hc%list_elem_of_In.
    vm_compute in Hc. by repeat destruct Hc as [<- | Hc].
  - by vm_compute.
Defined.

Lemma query_case_is_ignored_witness :
  search_epic_free_games (H:=ascii_runtime) (stub (catalog [hollow_knight]))
    (lit "HOLLOW Knight") s0
  = search_epic_free_games (H:=ascii_runtime) (stub (catalog [hollow_knight]))
      (lit "hollow knight") s0.
Proof.
  apply (query_case_is_ignored (H:=ascii_runtime)
           (stub (catalog [hollow_knight])) (lit "HOLLOW Knight")
           (lit "hollow knight") s0 (Element hollow_knight)).
  by vm_compute.
Defined.

Lemma echoed_query_reproduces_the_response_witness :
  exists resp s',
    search_games (H:=ascii_runtime) offline (lit "  portal   2 ") s0
    = (Ok resp, s')
    /\ query resp = lit "portal 2"
    /\ search_games (H:=ascii_runtime) offline (lit "portal 2") s0
       = (Ok resp, s').
Proof.
  eexists _, _. split; [by vm_compute|].
  apply (echoed_query_reproduces_the_response (H:=ascii_runtime) offline
           (lit "  portal   2 ") s0).
  by vm_compute.
Defined.
